(** * Placeport: the statistics store of server.js

    A shallow embedding of [StateManagement] (server.js, lines 290-449) and
    of the statistics handlers that read it (lines 700-823), followed by the
    properties of the bounded collections, of the two eviction orders, of the
    reads and of the windowed hit counter. *)

From stdpp Require Import gmap strings list fin_maps sorting pretty.
From Stdlib Require Import ZArith Lia.

Local Open Scope Z_scope.

(** ** Values

    The entries that the server records are JSON data: a path, a text or a
    referrer (strings) and a size [{w, h}].  [json] is the JSON fragment of
    the JavaScript values; an object is its list of properties in insertion
    order (property names that look like array indices, which JavaScript
    enumerates first, are outside the fragment).  A [value] is a JSON datum or
    [undefined] (the text of a request without [?text=]).  On this domain
    [JSON.stringify] is injective and [JSON.parse] inverts it: comparing two
    serialisations is comparing the data, and a list of records written to a
    file is read back as it was written. *)

#[local] Set Warnings "-register-all".

Inductive json : Type :=
  | JNull
  | JNum (z : Z)
  | JStr (s : string)
  | JArr (elems : list json)
  | JObj (fields : list (string * json)).

Inductive value : Type :=
  | VUndefined
  | VJson (j : json).

Definition VNull : value := VJson JNull.
Definition VStr (s : string) : value := VJson (JStr s).
Definition VArr (elems : list json) : value := VJson (JArr elems).

(** The size object [{ w: width, h: height }] of saveAllImageStats. *)
Definition VSize (w h : Z) : value :=
  VJson (JObj [("w"%string, JNum w); ("h"%string, JNum h)]).

Fixpoint json_eq_dec (x y : json) {struct x} : {x = y} + {x <> y}.
Proof.
  refine (
    match x, y with
    | JNull, JNull => left eq_refl
    | JNum a, JNum b => cast_if (decide (a = b))
    | JStr a, JStr b => cast_if (decide (a = b))
    | JArr a, JArr b =>
        cast_if ((fix go (l k : list json) {struct l} : {l = k} + {l <> k} :=
           match l, k with
           | [], [] => left eq_refl
           | u :: l', v :: k' =>
               match json_eq_dec u v, go l' k' with
               | left _, left _ => left _
               | _, _ => right _
               end
           | _, _ => right _
           end) a b)
    | JObj a, JObj b =>
        cast_if ((fix go (l k : list (string * json)) {struct l} : {l = k} + {l <> k} :=
           match l, k with
           | [], [] => left eq_refl
           | (s, u) :: l', (t, v) :: k' =>
               match decide (s = t), json_eq_dec u v, go l' k' with
               | left _, left _, left _ => left _
               | _, _, _ => right _
               end
           | _, _ => right _
           end) a b)
    | _, _ => right _
    end); abstract congruence.
Defined.

#[global] Instance json_eq : EqDecision json := json_eq_dec.

#[global] Instance value_eq : EqDecision value.
Proof. solve_decision. Defined.

(** A stored record: [{ entry, time, count }] (lines 328 and 356). *)
Record record : Type := Record_ {
  entry : value;
  time : Z;
  count : Z
}.

#[global] Instance record_eq : EqDecision record.
Proof. solve_decision. Defined.

(** ** Array.prototype.sort

    The server runs on Node, whose engine sorts with TimSort (V8 7.0, Node 11
    and later).  [comparefn] is called as [comparefn(x, y)] and only the sign
    of its result is used.  The array is first cut into its leading run,
    [CountAndMakeRun]: the longest prefix that is non-descending, or strictly
    descending and then reversed in place; the elements after the run are
    added one at a time by [BinaryInsertionSort].  For an array shorter than
    64 elements this is the whole algorithm; a longer array is cut into
    several such runs that are merged, which gives the same array when
    [comparefn] is a consistent comparison (a stable sort has one result) and
    when [comparefn] never answers a negative number (the leading run is then
    the whole array). *)

Section Sort.
Context {A : Type}.
Variable comparefn : A -> A -> Z.

(** The number of elements after [prev] that continue the run. *)
Fixpoint run_extent (descending : bool) (prev : A) (l : list A) : nat :=
  match l with
  | [] => 0%nat
  | x :: l' =>
      let order := comparefn x prev in
      if (if descending then order <? 0 else 0 <=? order)
      then S (run_extent descending x l')
      else 0%nat
  end.

(** [CountAndMakeRun]: the leading run, in non-descending order, and the
    elements that follow it. *)
Definition CountAndMakeRun (l : list A) : list A * list A :=
  match l with
  | [] => ([], [])
  | [x] => ([x], [])
  | x0 :: x1 :: l' =>
      let descending := comparefn x1 x0 <? 0 in
      let runLength := (2 + run_extent descending x1 l')%nat in
      let run := take runLength l in
      (if descending then reverse run else run, drop runLength l)
  end.

(** The binary search of [BinaryInsertionSort] for the place of [pivot] in
    the sorted prefix: [order < 0] moves [right], anything else moves
    [left].  The interval shrinks at every step, [fuel] bounds the steps. *)
Fixpoint insertion_point (fuel : nat) (pivot : A) (sorted : list A)
    (left right : nat) : nat :=
  match fuel with
  | O => left
  | S fuel' =>
      if (left <? right)%nat then
        let mid := (left + (right - left) / 2)%nat in
        match sorted !! mid with
        | Some x =>
            if comparefn pivot x <? 0
            then insertion_point fuel' pivot sorted left mid
            else insertion_point fuel' pivot sorted (mid + 1)%nat right
        | None => left
        end
      else left
  end.

Definition binary_insert (sorted : list A) (pivot : A) : list A :=
  let at_ := insertion_point (length sorted) pivot sorted 0%nat (length sorted) in
  take at_ sorted ++ pivot :: drop at_ sorted.

Definition BinaryInsertionSort (run rest : list A) : list A :=
  fold_left binary_insert rest run.

Definition js_sort (l : list A) : list A :=
  let '(run, rest) := CountAndMakeRun l in
  BinaryInsertionSort run rest.
End Sort.

(** A comparison function orders the array when it is consistent: the part of
    the requirements of ECMAScript on [comparefn] that the sort relies on,
    with [comparefn x y <= 0] read as "[x] may stand before [y]". *)
Record Consistent {A : Type} (comparefn : A -> A -> Z) : Prop := {
  consistent_flip : forall x y, 0 <= comparefn x y -> comparefn y x <= 0;
  consistent_trans :
    forall x y z, comparefn x y <= 0 -> comparefn y z <= 0 -> comparefn x z <= 0;
  consistent_before :
    forall x y z, comparefn x y < 0 -> comparefn y z <= 0 -> comparefn x z < 0
}.

(** The array is in the order of [comparefn]. *)
Definition ordered {A : Type} (comparefn : A -> A -> Z) (l : list A) : Prop :=
  StronglySorted (fun x y => comparefn x y <= 0) l.

(** ** Errors

    The only exception of the store itself is the [ReferenceError] of a name
    that is not bound.  A function that may throw returns a [completion]. *)

Inductive error : Type :=
  | ReferenceError (name : string).

Inductive completion (A : Type) : Type :=
  | Normal (a : A)
  | Throw (e : error).
Arguments Normal {A} a.
Arguments Throw {A} e.

(** ** StateManagement (lines 290-449) *)

(** [disk] is the content of the folder [location]: the records of
    [<name>.json], for the names that have a file.  [localPersistance] is the
    object of the same name: the array bound to each name. *)
Record StateManagement : Type := StateManagement_ {
  filePersistance : bool;
  disk : gmap string (list record);
  localPersistance : gmap string (list record)
}.

(** [new StateManagement(location, filePersistance)] over the folder [d]. *)
Definition new_StateManagement (d : gmap string (list record))
    (persist : bool) : StateManagement :=
  {| filePersistance := persist; disk := d; localPersistance := ∅ |}.

(** [value == null] (line 60). *)
Definition isNil (v : value) : bool :=
  match v with
  | VUndefined | VJson JNull => true
  | _ => false
  end.

(** Line 443.  The third test reads [a.length], and no [a] is in scope: for
    an array, empty or not, the evaluation throws. *)
Definition _canAdd (e : value) : completion bool :=
  if isNil e then Normal false
  else if (match e with VJson (JStr s) => bool_decide (s = ""%string) | _ => false end)
  then Normal false
  else match e with
       | VJson (JArr _) => Throw (ReferenceError "a")
       | _ => Normal true
       end.

(** The comparison functions handed to [sort].  A comparison that answers a
    boolean is read as a number: [true] is 1 and [false] is 0. *)
Definition newest_first (a b : record) : Z := time b - time a.

Definition most_counted_first (a b : record) : Z :=
  if bool_decide (count a = count b) then time b - time a else count b - count a.

Definition time_less (a b : record) : Z :=
  if bool_decide (time a < time b) then 1 else 0.

Definition count_less (a b : record) : Z :=
  if bool_decide (count a < count b) then 1 else 0.

(** Whether a read of [name] parses the file rather than taking the array
    in memory (line 380). *)
Definition reads_file (s : StateManagement) (name : string) : bool :=
  filePersistance s && bool_decide (is_Some (disk s !! name)).

(** The records a read of [name] starts from (lines 378-382). *)
Definition stored (s : StateManagement) (name : string) : list record :=
  if reads_file s name then default [] (disk s !! name)
  else default [] (localPersistance s !! name).

(** [sort] works in place.  The array a read returns is the array bound in
    [localPersistance] unless it was parsed from the file or was the fresh
    [[]] of an unbound name: sorting it reorders the stored array. *)
Definition sorted_in_place (s : StateManagement) (name : string)
    (sorted : list record) : StateManagement :=
  if reads_file s name then s
  else match localPersistance s !! name with
       | Some _ =>
           {| filePersistance := filePersistance s;
              disk := disk s;
              localPersistance := <[name := sorted]> (localPersistance s) |}
       | None => s
       end.

(** Lines 377-386: [content] before the final projection. *)
Definition getArrayContent (s : StateManagement) (name : string)
    (order : bool) : list record * StateManagement :=
  let content := stored s name in
  if order then
    let content := js_sort time_less content in
    (content, sorted_in_place s name content)
  else (content, s).

(** Line 376.  The result is the entries when [map] is set and the records
    otherwise. *)
Definition getArrayEntries (s : StateManagement) (name : string)
    (map order : bool) : (list value + list record) * StateManagement :=
  let '(content, s') := getArrayContent s name order in
  (if map then inl (entry <$> content) else inr content, s').

(** Line 403. *)
Definition writeArrayEntries (s : StateManagement) (name : string)
    (entries : list record) : StateManagement :=
  {| filePersistance := filePersistance s;
     disk := if filePersistance s then <[name := entries]> (disk s) else disk s;
     localPersistance := <[name := entries]> (localPersistance s) |}.

(** Line 394. *)
Definition removeArrayEntries (s : StateManagement) (name : string) : StateManagement :=
  writeArrayEntries s name [].

(** Line 434; [now] is the value of [Date.now()].  A count is a double, and
    [count + 1] is the sum of line 436 where that sum is exact: for a count
    from -2^53 to 2^53 - 1 (a count of 2^53 stays 2^53 in the code).  The
    counts that inserts make start at 1 and grow by one; a statement about
    the new count of an arbitrary stored record assumes the range. *)
Definition _incrementEntry (now : Z) (x : record) : record :=
  {| entry := entry x; time := now; count := count x + 1 |}.

(** Line 419: the first record whose entry has the serialisation of [e] is
    incremented where it stands.  The result is whether one was found, and
    the content after the call. *)
Fixpoint _incrementIfExists (now : Z) (content : list record) (e : value)
    : bool * list record :=
  match content with
  | [] => (false, [])
  | x :: rest =>
      if bool_decide (entry x = e) then (true, _incrementEntry now x :: rest)
      else let '(found, rest') := _incrementIfExists now rest e in
           (found, x :: rest')
  end.

(** The record of lines 328 and 356: [{ entry, time: Date.now(), count: 1 }]. *)
Definition fresh_record (e : value) (now : Z) : record :=
  {| entry := e; time := now; count := 1 |}.

(** Lines 327-329 and 355-357. *)
Definition increment_or_push (now : Z) (content : list record) (e : value)
    (increment : bool) : list record :=
  let pushed := content ++ [fresh_record e now] in
  if negb increment then pushed
  else let '(found, content') := _incrementIfExists now content e in
       if negb found then pushed else content'.

(** [content.pop()]. *)
Definition pop (content : list record) : list record := removelast content.

(** Lines 333-336 and 361-364: one record leaves when the content is longer
    than [persistAmount]. *)
Definition reduce (comparefn : record -> record -> Z)
    (persistAmount : option nat) (content : list record) : list record :=
  match persistAmount with
  | Some amount =>
      if (amount <? length content)%nat then pop (js_sort comparefn content)
      else content
  | None => content
  end.

(** The content that an accepted insert writes back: lines 327-336 and
    355-364 on the content read at lines 325 and 353. *)
Definition inserted_content (comparefn : record -> record -> Z) (now : Z)
    (content : list record) (e : value) (persistAmount : option nat)
    (increment : bool) : list record :=
  reduce comparefn persistAmount (increment_or_push now content e increment).

(** Line 322.  [now] is the value of [Date.now()]; [persistAmount] is [None]
    for [null]. *)
Definition addArrayEntry (s : StateManagement) (now : Z) (name : string)
    (e : value) (persistAmount : option nat) (increment : bool)
    : completion StateManagement :=
  match _canAdd e with
  | Throw err => Throw err
  | Normal false => Normal s
  | Normal true =>
      let '(content, s) := getArrayContent s name false in
      let content := increment_or_push now content e increment in
      let content := reduce newest_first persistAmount content in
      Normal (writeArrayEntries s name content)
  end.

(** Line 350. *)
Definition addArrayCountEntry (s : StateManagement) (now : Z) (name : string)
    (e : value) (persistAmount : option nat) (increment : bool)
    : completion StateManagement :=
  match _canAdd e with
  | Throw err => Throw err
  | Normal false => Normal s
  | Normal true =>
      let '(content, s) := getArrayContent s name false in
      let content := increment_or_push now content e increment in
      let content := reduce most_counted_first persistAmount content in
      Normal (writeArrayEntries s name content)
  end.

(** ** The statistics handlers (lines 700-823)

    [stateManagement] is the one store of the process: a handler takes it and
    gives it back with the body of its response. *)

(** Lines 735, 744 and 752: [getArrayEntries(name)], with the defaults
    [map = true] and [order = true]. *)
Definition recent (s : StateManagement) (name : string)
    : list value * StateManagement :=
  let '(content, s') := getArrayContent s name true in
  (entry <$> content, s').

Definition sendRecentTexts (s : StateManagement) := recent s "texts".
Definition sendRecentPaths (s : StateManagement) := recent s "paths".
Definition sendRecentSizes (s : StateManagement) := recent s "sizes".

(** Setting a property of an object: in place when the name is there, at
    the end otherwise. *)
Fixpoint set_property (k : string) (v : json) (fields : list (string * json))
    : list (string * json) :=
  match fields with
  | [] => [(k, v)]
  | (k', v') :: rest =>
      if bool_decide (k' = k) then (k, v) :: rest
      else (k', v') :: set_property k v rest
  end.

(** [Object.assign(target, source)]: the own properties of [source] are set
    on [target].  A string and an array bring their elements under their
    indices, which an object enumerates before its other properties;
    [undefined], [null] and a number bring nothing. *)
Definition Object_assign (target : list (string * json)) (source : value)
    : list (string * json) :=
  match source with
  | VJson (JObj fields) =>
      fold_left (fun t '(k, v) => set_property k v t) fields target
  | VJson (JStr str) =>
      imap (fun i c => (pretty i, JStr (String c EmptyString)))
           (String.list_ascii_of_string str) ++ target
  | VJson (JArr elems) => imap (fun i x => (pretty i, x)) elems ++ target
  | _ => target
  end.

(** Line 761. *)
Definition sendTopSizes (s : StateManagement) : list json * StateManagement :=
  let '(content, s) := getArrayContent s "sizes-all" false in
  let sizes := js_sort count_less content in
  let s := sorted_in_place s "sizes-all" sizes in
  let topSizes :=
    (fun x => JObj (Object_assign [("n"%string, JNum (count x))] (entry x))) <$> sizes in
  (topSizes, s).

(** Line 772.  A property whose value is [undefined] is not part of the
    JSON of the response. *)
Definition sendTopReferences (s : StateManagement) : list json * StateManagement :=
  let '(content, s) := getArrayContent s "references" false in
  let refs := js_sort count_less content in
  let s := sorted_in_place s "references" refs in
  let references :=
    (fun x => JObj (match entry x with
                    | VJson j => [("ref"%string, j); ("n"%string, JNum (count x))]
                    | VUndefined => [("n"%string, JNum (count x))]
                    end)) <$> refs in
  (references, s).

(** ** Dates (lines 790-799)

    A [Date] holds a time value: the milliseconds since the epoch, in UTC,
    or [NaN] for an invalid date ([None]).  [getSeconds] and [setSeconds]
    work on the local time of the process.  [LocalTZA t isUTC] is the offset
    of the local time zone in milliseconds: at the UTC time [t] when [isUTC]
    is set, at the local time [t] otherwise, where a local time that a
    transition repeats or skips is read with the offset before the
    transition (ECMAScript, Time Values and Time Range, Local Time Zone
    Adjustment).  The time values of the dates are integers below 2^53, on
    which the arithmetic of doubles is exact. *)
Definition msPerSecond : Z := 1000.
Definition msPerMinute : Z := 60000.
Definition msPerHour : Z := 3600000.
Definition msPerDay : Z := 86400000.

Definition Day (t : Z) : Z := t / msPerDay.
Definition HourFromTime (t : Z) : Z := (t / msPerHour) mod 24.
Definition MinFromTime (t : Z) : Z := (t / msPerMinute) mod 60.
Definition SecFromTime (t : Z) : Z := (t / msPerSecond) mod 60.
Definition msFromTime (t : Z) : Z := t mod msPerSecond.

Definition MakeTime (hour min sec ms : Z) : Z :=
  hour * msPerHour + min * msPerMinute + sec * msPerSecond + ms.

Definition MakeDate (day time : Z) : Z := day * msPerDay + time.

Definition TimeClip (time : Z) : option Z :=
  if bool_decide (Z.abs time <= 8640000000000000) then Some time else None.

Section LocalTime.
Variable LocalTZA : Z -> bool -> Z.

Definition LocalTime (t : Z) : Z := t + LocalTZA t true.

Definition UTC (t : Z) : Z := t - LocalTZA t false.

(** [date.getSeconds()]. *)
Definition getSeconds (date : option Z) : option Z :=
  match date with
  | Some t => Some (SecFromTime (LocalTime t))
  | None => None
  end.

(** [date.setSeconds(sec)]: the new time value of [date]. *)
Definition setSeconds (date sec : option Z) : option Z :=
  match date, sec with
  | Some t, Some s =>
      let t := LocalTime t in
      let date := MakeDate (Day t)
                    (MakeTime (HourFromTime t) (MinFromTime t) s (msFromTime t)) in
      TimeClip (UTC date)
  | _, _ => None
  end.

(** [adjusted.setSeconds(adjusted.getSeconds() - 5)] (lines 793, 796 and
    799). *)
Definition five_seconds_back (adjusted : option Z) : option Z :=
  setSeconds adjusted ((fun sec => sec - 5) <$> getSeconds adjusted).

End LocalTime.

(** A process in UTC. *)
Definition Etc_UTC (t : Z) (isUTC : bool) : Z := 0.

(** America/New_York from March 2026 to March 2027: daylight time (4 hours
    behind UTC) ends on 1 November 2026 at 06:00:00 UTC, when the clocks go
    from 02:00 back to 01:00, standard time (5 hours behind).  The local
    hour from 01:00 to 02:00 of that day comes twice, and is read as
    daylight time. *)
Definition America_New_York (t : Z) (isUTC : bool) : Z :=
  let transition := 1793512800000 in
  if isUTC then (if t <? transition then -14400000 else -18000000)
  else (if t <? transition - 14400000 then -14400000 else -18000000).


(** The filter of lines 794, 797 and 800: [x.time > adjusted && x.time <
    current], the two dates compared by their time values; no number is
    above an invalid date. *)
Definition between (adjusted : option Z) (current : Z) (x : record) : Prop :=
  match adjusted with
  | Some adjusted => adjusted < time x /\ time x < current
  | None => False
  end.

#[global] Instance between_dec adjusted current x : Decision (between adjusted current x).
Proof. unfold between. destruct adjusted; apply _. Defined.

Definition hit (title : string) (n : nat) : json :=
  JObj [("title"%string, JStr title); ("count"%string, JNum (Z.of_nat n))].

(** Line 782.  [adjusted] and [current] are the time values of the two
    [new Date()] of lines 790 and 791, and [LocalTZA] is the time zone of
    the process. *)
Definition sendSecondHits (LocalTZA : Z -> bool -> Z) (s : StateManagement)
    (adjusted current : Z) : list json * StateManagement :=
  let '(all, s) := getArrayContent s "hits" true in
  let adjusted := Some adjusted in
  let adjusted :=
    setSeconds LocalTZA adjusted ((fun sec => sec - 5) <$> getSeconds LocalTZA adjusted) in
  let five := hit "5s" (length (filter (between adjusted current) all)) in
  let adjusted :=
    setSeconds LocalTZA adjusted ((fun sec => sec - 5) <$> getSeconds LocalTZA adjusted) in
  let ten := hit "10s" (length (filter (between adjusted current) all)) in
  let adjusted :=
    setSeconds LocalTZA adjusted ((fun sec => sec - 5) <$> getSeconds LocalTZA adjusted) in
  let filteredFifteen := filter (between adjusted current) all in
  let fifteen := hit "15s" (length filteredFifteen) in
  ([five; ten; fifteen], writeArrayEntries s "hits" filteredFifteen).

(** Line 814. *)
Definition clearAllStats (s : StateManagement) : StateManagement :=
  let s := removeArrayEntries s "hits" in
  let s := removeArrayEntries s "paths" in
  let s := removeArrayEntries s "texts" in
  let s := removeArrayEntries s "sizes" in
  let s := removeArrayEntries s "sizes-all" in
  removeArrayEntries s "references".

(** ** Sequences of calls

    The requests of a run of the server, as the calls they make on the
    store.  A call that throws fails its request and leaves the store as it
    was.  A query of the hit counter comes with the time zone of the process
    and the two dates it reads. *)
Inductive call : Type :=
  | AddArrayEntry (now : Z) (name : string) (e : value)
      (persistAmount : option nat) (increment : bool)
  | AddArrayCountEntry (now : Z) (name : string) (e : value)
      (persistAmount : option nat) (increment : bool)
  | GetArrayEntries (name : string) (map order : bool)
  | WriteArrayEntries (name : string) (entries : list record)
  | RemoveArrayEntries (name : string)
  | SendTopSizes
  | SendTopReferences
  | SendSecondHits (LocalTZA : Z -> bool -> Z) (adjusted current : Z).

Definition settle (s : StateManagement) (c : completion StateManagement)
    : StateManagement :=
  match c with
  | Normal s' => s'
  | Throw _ => s
  end.

Definition step (s : StateManagement) (c : call) : StateManagement :=
  match c with
  | AddArrayEntry now name e amount increment =>
      settle s (addArrayEntry s now name e amount increment)
  | AddArrayCountEntry now name e amount increment =>
      settle s (addArrayCountEntry s now name e amount increment)
  | GetArrayEntries name map order => snd (getArrayEntries s name map order)
  | WriteArrayEntries name entries => writeArrayEntries s name entries
  | RemoveArrayEntries name => removeArrayEntries s name
  | SendTopSizes => snd (sendTopSizes s)
  | SendTopReferences => snd (sendTopReferences s)
  | SendSecondHits LocalTZA adjusted current =>
      snd (sendSecondHits LocalTZA s adjusted current)
  end.

Definition run (s : StateManagement) (calls : list call) : StateManagement :=
  fold_left step calls s.


(** ** Collections with a fixed configuration

    The server gives each name one capacity and one merge setting (lines
    710-717).  [within_capacity name k] holds of the calls that treat the
    collection [name] as one of capacity [k]. *)
Definition within_capacity (name : string) (k : nat) (c : call) : Prop :=
  match c with
  | AddArrayEntry _ n _ amount _ | AddArrayCountEntry _ n _ amount _ =>
      n = name -> amount = Some k
  | WriteArrayEntries n entries => n = name -> (length entries <= k)%nat
  | _ => True
  end.

(** A fresh store over an empty folder, in memory. *)
Definition fresh : StateManagement := new_StateManagement ∅ false.

(** The calls that record the entries [es], each with its time, in the
    collection [name] of capacity [k]. *)
Definition record_all (name : string) (k : nat) (es : list (value * Z)) : list call :=
  (fun p => AddArrayEntry p.2 name p.1 (Some k) true) <$> es.

(** With persistence on, the memory holds no collection that has no file:
    so it is after [new StateManagement(location, true)], and so it stays. *)
Definition durable (s : StateManagement) : Prop :=
  filePersistance s = true /\
  forall name, disk s !! name = None -> localPersistance s !! name = None.

(** The window of the last [ms] milliseconds before [now], [now] included. *)
Definition within_last (now ms : Z) (x : record) : Prop :=
  now - ms < time x /\ time x <= now.

#[global] Instance within_last_dec now ms x : Decision (within_last now ms x).
Proof. unfold within_last. apply _. Defined.

(** ** Merge-enabled collections *)

(** Whether the call [c] is an insert of the value [v] in the collection
    [name]. *)
Definition inserts (name : string) (v : value) (c : call) : bool :=
  match c with
  | AddArrayEntry _ n e _ _ | AddArrayCountEntry _ n e _ _ =>
      bool_decide (n = name) && bool_decide (e = v)
  | _ => false
  end.

(** The number of times [v] was inserted in [name] by [calls]. *)
Definition times_inserted (name : string) (v : value) (calls : list call) : Z :=
  Z.of_nat (length (filter (fun c => inserts name v c = true) calls)).

(** The calls that treat [name] as a merge-enabled collection: its inserts
    have [increment = true], and nothing replaces or clears it. *)
Definition merging (name : string) (c : call) : Prop :=
  match c with
  | AddArrayEntry _ n _ _ increment | AddArrayCountEntry _ n _ _ increment =>
      n = name -> increment = true
  | WriteArrayEntries n _ | RemoveArrayEntries n => n <> name
  | SendSecondHits _ _ _ => name <> "hits"%string
  | _ => True
  end.

(** Whether [_canAdd] lets the value in. *)
Definition accepted (e : value) : bool :=
  match _canAdd e with
  | Normal true => true
  | _ => false
  end.

(** The accepted values that [calls] insert in [name], in the order of the
    calls. *)
Definition inserted_values (name : string) (calls : list call) : list value :=
  omap (fun c =>
          match c with
          | AddArrayEntry _ n e _ _ | AddArrayCountEntry _ n e _ _ =>
              if bool_decide (n = name) && accepted e
              then Some e else None
          | _ => None
          end) calls.

(** The inserts of [c] in [name] leave room for all the values of [calls]:
    they pass no capacity, or a capacity that is at least the number of
    distinct values that [calls] insert in [name].  Nothing is then ever
    evicted from [name]. *)
Definition roomy (name : string) (calls : list call) (c : call) : Prop :=
  match c with
  | AddArrayEntry _ n _ amount _ | AddArrayCountEntry _ n _ amount _ =>
      n = name ->
      forall k, amount = Some k ->
        (length (remove_dups (inserted_values name calls)) <= k)%nat
  | _ => True
  end.

(** What holds of the content of a merge-enabled collection after [calls]:
    the entries are distinct and accepted, and no count exceeds the number
    of inserts of its entry. *)
Definition merged (name : string) (calls : list call) (content : list record) : Prop :=
  NoDup (entry <$> content) /\
  forall r, r ∈ content ->
    _canAdd (entry r) = Normal true /\
    1 <= count r <= times_inserted name (entry r) calls.

(** Every insert is accounted for: a stored count is the number of inserts of
    its entry, and an accepted value that is not stored was never inserted. *)
Definition counted (name : string) (calls : list call) (content : list record) : Prop :=
  (forall r, r ∈ content -> count r = times_inserted name (entry r) calls) /\
  (forall v, _canAdd v = Normal true -> v ∉ entry <$> content ->
     times_inserted name v calls = 0).

From Stdlib Require Import Ascii.

(** ** Recording a served image (line 700)

    [saveAllImageStats] runs before the image is sent.  Its request carries
    the numbers [width] and [height] that the validation or the random route
    left in [req.params], the [square] of the query ([undefined] or a
    number), its [text] ([undefined], a string, or what the query parser
    makes of a repeated [text=]: an array) and the [Referer] header. *)
Record image_request : Type := ImageRequest {
  baseUrl : string;
  width : Z;
  height : Z;
  square : option Z;
  text : value;
  referer : option string
}.

(** The values of [Date.now()] in the six inserts of one request. *)
Record ticks : Type := Ticks {
  at_hits : Z;
  at_paths : Z;
  at_texts : Z;
  at_sizes : Z;
  at_sizes_all : Z;
  at_references : Z
}.

(** A sequence of statements on the store: the state so far, and the
    exception that stopped it, if one did.  An insert throws before it
    touches the store. *)
Definition and_then (r : StateManagement * option error)
    (f : StateManagement -> completion StateManagement)
    : StateManagement * option error :=
  match r with
  | (s, Some err) => (s, Some err)
  | (s, None) =>
      match f s with
      | Normal s' => (s', None)
      | Throw err => (s, Some err)
      end
  end.

Section Escape.
(** The global [escape], applied to the text as the template literal of
    lines 707 and 708 applies it. *)
Variable escape : value -> string.

(** Lines 706-708.  The numbers are integers and print in decimal. *)
Definition request_path (req : image_request) : string :=
  let path := (baseUrl req +:+ "/" +:+ pretty (width req) +:+ "/" +:+ pretty (height req))%string in
  let path :=
    match square req with
    | Some sq =>
        (path +:+ "?square=" +:+ pretty sq +:+
         (if isNil (text req) then "" else "&text=" +:+ escape (text req)))%string
    | None => path
    end in
  match square req with
  | None =>
      if negb (isNil (text req))
      then (path +:+ "?text=" +:+ escape (text req))%string
      else path
  | Some _ => path
  end.

(** Lines 710-718. *)
Definition saveAllImageStats (s : StateManagement) (t : ticks)
    (req : image_request) : StateManagement * option error :=
  let path := VStr (request_path req) in
  let size := VSize (width req) (height req) in
  let r := (s, None) in
  let r := and_then r (fun s => addArrayEntry s (at_hits t) "hits" path None false) in
  let r := and_then r (fun s => addArrayEntry s (at_paths t) "paths" path (Some 10%nat) true) in
  let r := and_then r (fun s => addArrayEntry s (at_texts t) "texts" (text req) (Some 10%nat) true) in
  let r := and_then r (fun s => addArrayEntry s (at_sizes t) "sizes" size (Some 10%nat) true) in
  let r := and_then r (fun s =>
             addArrayCountEntry s (at_sizes_all t) "sizes-all" size (Some 10%nat) true) in
  match referer req with
  | Some reference =>
      if negb (bool_decide (reference = ""%string)) then
        and_then r (fun s =>
          addArrayCountEntry s (at_references t) "references" (VStr reference)
            (Some 10%nat) true)
      else r
  | None => r
  end.

(** The requests served one after the other; a request whose recording
    throws is answered with an error and the next one finds the store as the
    failed one left it. *)
Definition serve (s : StateManagement) (requests : list (ticks * image_request))
    : StateManagement :=
  fold_left (fun s tr => (saveAllImageStats s tr.1 tr.2).1) requests s.

(** The calls that [saveAllImageStats] makes on the store, up to the one
    that throws. *)
Definition recording (t : ticks) (req : image_request) : list call :=
  let path := VStr (request_path req) in
  let size := VSize (width req) (height req) in
  [AddArrayEntry (at_hits t) "hits" path None false;
   AddArrayEntry (at_paths t) "paths" path (Some 10%nat) true] ++
  match text req with
  | VJson (JArr _) => []
  | _ =>
      [AddArrayEntry (at_texts t) "texts" (text req) (Some 10%nat) true;
       AddArrayEntry (at_sizes t) "sizes" size (Some 10%nat) true;
       AddArrayCountEntry (at_sizes_all t) "sizes-all" size (Some 10%nat) true] ++
      match referer req with
      | Some reference =>
          if negb (bool_decide (reference = ""%string)) then
            [AddArrayCountEntry (at_references t) "references" (VStr reference)
               (Some 10%nat) true]
          else []
      | None => []
      end
  end.
End Escape.

(** The calls that insert in a collection other than [name]. *)
Definition inserts_elsewhere (name : string) (c : call) : Prop :=
  match c with
  | AddArrayEntry _ n _ _ _ | AddArrayCountEntry _ n _ _ _ => n <> name
  | _ => False
  end.

(** An [escape] for the examples: a text without reserved characters is its
    own escape. *)
Definition plain (v : value) : string :=
  match v with
  | VJson (JStr str) => str
  | _ => ""%string
  end.

(** ** Strings (lines 68-74 and 622-645)

    The strings of the quotes and of the words are ASCII: a character of the
    model is a character of the JavaScript string. *)

(** [s] without its first [n] characters. *)
Fixpoint skip (n : nat) (s : string) : string :=
  match n, s with
  | S n', String _ s' => skip n' s'
  | _, _ => s
  end.

(** The first occurrence of [searchString] in [s]: what stands before it and
    what stands after it. *)
Fixpoint split_first (searchString s : string) : option (string * string) :=
  if String.prefix searchString s
  then Some (EmptyString, skip (String.length searchString) s)
  else match s with
       | EmptyString => None
       | String c s' =>
           match split_first searchString s' with
           | Some (before, after) => Some (String c before, after)
           | None => None
           end
       end.

(** [s.includes(searchString)]. *)
Definition includes (searchString s : string) : bool :=
  match split_first searchString s with
  | Some _ => true
  | None => false
  end.

(** The replacement text that [replace] makes of its second argument when
    the pattern is a string (GetSubstitution of ECMAScript, without
    captures): [$$] is a dollar, [$&] the match, [$`] what stands before the
    match, [$'] what stands after it; any other dollar stands for itself. *)
Fixpoint GetSubstitution (matched before after template : string) : string :=
  match template with
  | EmptyString => EmptyString
  | String c rest =>
      if Ascii.eqb c "$"%char then
        match rest with
        | String d rest' =>
            if Ascii.eqb d "$"%char
            then String "$"%char (GetSubstitution matched before after rest')
            else if Ascii.eqb d "&"%char
            then (matched +:+ GetSubstitution matched before after rest')%string
            else if Ascii.eqb d "`"%char
            then (before +:+ GetSubstitution matched before after rest')%string
            else if Ascii.eqb d "'"%char
            then (after +:+ GetSubstitution matched before after rest')%string
            else String "$"%char (GetSubstitution matched before after rest)
        | EmptyString => String "$"%char EmptyString
        end
      else String c (GetSubstitution matched before after rest)
  end.

(** [s.replace(searchString, replaceValue)] for two strings: the first
    occurrence is replaced, if there is one. *)
Definition replace (searchString replaceValue s : string) : string :=
  match split_first searchString s with
  | Some (before, after) =>
      (before +:+ GetSubstitution searchString before after replaceValue +:+ after)%string
  | None => s
  end.

(** Line 68. *)
Definition formatString (stringValue : string) (args : list string) : string :=
  fold_left
    (fun stringValue element =>
       if includes "%s" stringValue then replace "%s" element stringValue
       else stringValue)
    args stringValue.

(** Lines 167-181 and 185-191. *)
Definition WORDS : list string :=
  ["boom"; "lettuce"; "substance"; "bear"; "discover"; "savory"; "party"; "zippy";
   "potato"; "gainful"; "sharp"; "move"; "offbeat"]%string.

Definition QUOTES : list string :=
  ["Turn your %s into wisdom.";
   "Wherever you go, go with all your %s.";
   "%s is a waking dream.";
   "If you %s it, you can %s it.";
   "Dream %s and dare to %s."]%string.

(** Line 109, [words\[getRandomNum(0, words.length - 1)\]] for the index
    [drawn]; an index past the end gives [undefined], which [replace] prints
    as "undefined". *)
Definition getRandomWord (drawn : nat) : string :=
  nth drawn WORDS "undefined"%string.

(** [randomQuote.match(/%s/g)]: the number of matches, left to right. *)
Fixpoint matches (s : string) : nat :=
  match s with
  | EmptyString => 0
  | String c rest =>
      match rest with
      | String d rest' =>
          if Ascii.eqb c "%"%char && Ascii.eqb d "s"%char then S (matches rest')
          else matches rest
      | EmptyString => 0
      end
  end.

(** What a middleware does with a request: it answers, it throws, or it
    hands the request on. *)
Inductive handled (A : Type) : Type :=
  | Answered (status : Z) (body : json)
  | Thrown
  | Next (request : A).
Arguments Answered {A} status body.
Arguments Thrown {A}.
Arguments Next {A} request.

(** The loop of lines 638-640: [amount] times a word is drawn and put in
    the place of the first placeholder.  [drawn i] is the index of the word
    of the [i]-th draw. *)
Fixpoint fill_quote (amount : nat) (index : nat) (drawn : nat -> nat)
    (randomQuote : string) : string :=
  match amount with
  | O => randomQuote
  | S amount' =>
      fill_quote amount' (S index) drawn
        (formatString randomQuote [getRandomWord (drawn index)])
  end.

(** Line 622, for the query text [text] of the request; [quote] is the index
    drawn for the quote.  The result is the text handed on.  A quote without
    placeholder, or none at all, has no [match(...).length]. *)
Definition generateInspirationalQuote (text : value) (quote : nat)
    (drawn : nat -> nat) : handled string :=
  if negb (isNil text) then
    Answered 400
      (JObj [("error"%string, JStr "Text");
             ("message"%string,
              JStr "Text query cannot be set if you are looking for a inspiration")])
  else
    match QUOTES !! quote with
    | None => Thrown
    | Some randomQuote =>
        match matches randomQuote with
        | O => Thrown
        | amountToReplace => Next (fill_quote amountToReplace 0 drawn randomQuote)
        end
    end.

(** The collection [name] is bound to the empty array, in memory and, with
    persistence on, in its file. *)
Definition cleared (s : StateManagement) (name : string) : Prop :=
  localPersistance s !! name = Some [] /\
  (filePersistance s = true -> disk s !! name = Some []).

(** ** First checks of the embedding *)

Example js_sort_numeric :
  js_sort (fun a b => a - b) [3; 1; 2; 5; 4; 0] = [0; 1; 2; 3; 4; 5].
Proof. reflexivity. Qed.

Example js_sort_descending_run :
  js_sort (fun a b => a - b) [5; 4; 3; 1; 2] = [1; 2; 3; 4; 5].
Proof. reflexivity. Qed.

Example js_sort_boolean_comparator :
  js_sort (fun a b => if a <? b then 1 else 0) [1; 2; 3] = [1; 2; 3].
Proof. reflexivity. Qed.

Example three_paths :
  fst (sendRecentPaths
    (run (new_StateManagement ∅ false)
       [AddArrayEntry 1 "paths" (VStr "/img/100/100") (Some 10%nat) true;
        AddArrayEntry 2 "paths" (VStr "/img/100/100") (Some 10%nat) true;
        AddArrayEntry 3 "paths" (VStr "/img/100/100") (Some 10%nat) true]))
  = [VStr "/img/100/100"].
Proof. vm_compute. reflexivity. Qed.

Example top_sizes_shape :
  fst (sendTopSizes
    (run (new_StateManagement ∅ false)
       [AddArrayCountEntry 1 "sizes-all" (VSize 100 50) (Some 10%nat) true;
        AddArrayCountEntry 2 "sizes-all" (VSize 100 50) (Some 10%nat) true]))
  = [JObj [("n"%string, JNum 2); ("w"%string, JNum 100); ("h"%string, JNum 50)]].
Proof. vm_compute. reflexivity. Qed.

(** ** Array.prototype.sort: what the callers rely on *)

Section SortFacts.
Context {A : Type}.
Variable comparefn : A -> A -> Z.

Lemma CountAndMakeRun_perm (l : list A) :
  (CountAndMakeRun comparefn l).1 ++ (CountAndMakeRun comparefn l).2 ≡ₚ l.
Proof.
  destruct l as [|x0 [|x1 l']]; simpl; try done.
  destruct (comparefn x1 x0 <? 0); simpl;
    rewrite ?reverse_Permutation; simpl; by rewrite take_drop.
Qed.

Lemma binary_insert_perm (sorted : list A) (pivot : A) :
  binary_insert comparefn sorted pivot ≡ₚ sorted ++ [pivot].
Proof.
  unfold binary_insert.
  set (i := insertion_point _ _ _ _ _ _).
  rewrite <- Permutation_middle, take_drop.
  apply Permutation_cons_append.
Qed.

Lemma BinaryInsertionSort_perm (rest run : list A) :
  BinaryInsertionSort comparefn run rest ≡ₚ run ++ rest.
Proof.
  unfold BinaryInsertionSort.
  revert run. induction rest as [|x rest IH]; intros run; simpl.
  - by rewrite app_nil_r.
  - rewrite IH, binary_insert_perm. by rewrite <- app_assoc.
Qed.

(** Sorting keeps the elements, whatever [comparefn] answers. *)
Lemma js_sort_perm (l : list A) : js_sort comparefn l ≡ₚ l.
Proof.
  unfold js_sort.
  pose proof (CountAndMakeRun_perm l) as H.
  destruct (CountAndMakeRun comparefn l) as [run rest]; simpl in H.
  by rewrite BinaryInsertionSort_perm.
Qed.

Lemma js_sort_length (l : list A) : length (js_sort comparefn l) = length l.
Proof. by rewrite js_sort_perm. Qed.

Lemma js_sort_nil_inv (l : list A) : js_sort comparefn l = [] -> l = [].
Proof.
  intros H. apply Permutation_nil_r. by rewrite <- H, js_sort_perm.
Qed.

(** A comparison that never answers a negative number leaves the array as
    it is: the whole array is its leading run. *)
Lemma run_extent_never_negative (prev : A) (l : list A) :
  (forall x y, 0 <= comparefn x y) ->
  run_extent comparefn false prev l = length l.
Proof.
  intros H. revert prev. induction l as [|x l IH]; intros prev; simpl; [done|].
  destruct (Z.leb_spec 0 (comparefn x prev)) as [_|Hlt].
  - by rewrite IH.
  - specialize (H x prev). lia.
Qed.

Lemma js_sort_never_negative (l : list A) :
  (forall x y, 0 <= comparefn x y) -> js_sort comparefn l = l.
Proof.
  intros H. unfold js_sort.
  destruct l as [|x0 [|x1 l']]; simpl; try done.
  destruct (Z.ltb_spec (comparefn x1 x0) 0) as [Hlt|_].
  - specialize (H x1 x0). lia.
  - rewrite run_extent_never_negative by done.
    rewrite firstn_all, drop_all. done.
Qed.
End SortFacts.

Section SortOrdered.
Context {A : Type}.
Variable comparefn : A -> A -> Z.
Hypothesis consistent : Consistent comparefn.

Lemma ordered_lookup (l : list A) (i j : nat) (x y : A) :
  ordered comparefn l -> (i < j)%nat ->
  l !! i = Some x -> l !! j = Some y -> comparefn x y <= 0.
Proof.
  unfold ordered. intros Hl. revert i j.
  induction Hl as [|a l Hl IH Hall]; intros i j Hij Hi Hj; [done|].
  destruct j as [|j]; [lia|]. destruct i as [|i]; simpl in *.
  - injection Hi as ->. by eapply (Forall_lookup_1 _ _ _ _ Hall).
  - eapply (IH i j); [lia|done..].
Qed.

(** The binary search ends on the place that keeps the prefix in order:
    [pivot] is not before anything on its left, and is before everything
    on its right. *)
Lemma insertion_point_spec (pivot : A) (sorted : list A) (fuel left right : nat) :
  ordered comparefn sorted ->
  (left <= right <= length sorted)%nat ->
  (right - left <= fuel)%nat ->
  (forall i x, (i < left)%nat -> sorted !! i = Some x -> 0 <= comparefn pivot x) ->
  (forall i x, (right <= i)%nat -> sorted !! i = Some x -> comparefn pivot x < 0) ->
  let at_ := insertion_point comparefn fuel pivot sorted left right in
  (at_ <= length sorted)%nat /\
  (forall i x, (i < at_)%nat -> sorted !! i = Some x -> 0 <= comparefn pivot x) /\
  (forall i x, (at_ <= i)%nat -> sorted !! i = Some x -> comparefn pivot x < 0).
Proof.
  intros Hs. revert left right.
  induction fuel as [|fuel IH]; intros left right Hlr Hfuel Hleft Hright;
    cbn [insertion_point].
  { assert (left = right) as -> by lia. split; [lia|]. split; assumption. }
  destruct (Nat.ltb_spec left right) as [Hlt|Hge]; cycle 1.
  { assert (left = right) as -> by lia. split; [lia|]. split; assumption. }
  pose proof (Nat.div_mod_eq (right - left) 2) as Hdiv.
  pose proof (Nat.mod_upper_bound (right - left) 2 ltac:(lia)) as Hmod.
  set (mid := (left + (right - left) / 2)%nat) in *.
  assert (left <= mid < right)%nat as Hmid by (unfold mid; lia).
  destruct (lookup_lt_is_Some_2 sorted mid ltac:(lia)) as [m Hm].
  rewrite Hm.
  destruct (Z.ltb_spec (comparefn pivot m) 0) as [Hneg|Hpos].
  - apply IH; [lia|lia|done|].
    intros i x Hi Hx.
    destruct (decide (i = mid)) as [->|Hne]; [congruence|].
    eapply (consistent_before _ consistent); [exact Hneg|].
    eapply (ordered_lookup sorted mid i); [done|lia|done..].
  - apply IH; [lia|lia| |done].
    intros i x Hi Hx.
    destruct (decide (i = mid)) as [->|Hne]; [congruence|].
    destruct (Z.le_gt_cases 0 (comparefn pivot x)) as [|Hneg]; [done|].
    assert (comparefn pivot m < 0); [|lia].
    eapply (consistent_before _ consistent); [exact Hneg|].
    eapply (ordered_lookup sorted i mid); [done|lia|done..].
Qed.

Lemma binary_insert_ordered (sorted : list A) (pivot : A) :
  ordered comparefn sorted -> ordered comparefn (binary_insert comparefn sorted pivot).
Proof.
  intros Hs. unfold binary_insert.
  destruct (insertion_point_spec pivot sorted (length sorted) 0 (length sorted))
    as (Hlen & Hleft & Hright); [done|lia|lia|intros; lia| |].
  { intros i x Hi Hx. apply lookup_lt_Some in Hx. lia. }
  set (i := insertion_point _ _ _ _ _ _) in *.
  pose proof Hs as Hs'. unfold ordered in Hs'.
  rewrite <- (take_drop i sorted) in Hs'.
  apply StronglySorted_app in Hs' as (Hcross & Htake & Hdrop).
  unfold ordered. apply StronglySorted_app. split_and!; [|done|].
  - intros x1 x2 Hx1 Hx2.
    pose proof Hx1 as Hin.
    apply list_elem_of_lookup in Hx1 as [k Hk].
    pose proof (lookup_lt_Some _ _ _ Hk) as Hklt.
    rewrite length_take in Hklt.
    rewrite lookup_take_lt in Hk by lia.
    assert (comparefn x1 pivot <= 0) as Hx1p.
    { apply (consistent_flip _ consistent). eapply Hleft; [|done]. lia. }
    apply elem_of_cons in Hx2 as [->|Hx2]; [done|].
    by apply Hcross.
  - apply StronglySorted_cons. split; [|done].
    apply Forall_forall. intros x Hx.
    apply list_elem_of_lookup in Hx as [k Hk].
    rewrite lookup_drop in Hk.
    assert (comparefn pivot x < 0); [|lia].
    eapply Hright; [|done]. lia.
Qed.

Lemma BinaryInsertionSort_ordered (rest run : list A) :
  ordered comparefn run -> ordered comparefn (BinaryInsertionSort comparefn run rest).
Proof.
  unfold BinaryInsertionSort. revert run.
  induction rest as [|x rest IH]; intros run Hrun; simpl; [done|].
  by apply IH, binary_insert_ordered.
Qed.

Lemma ascending_run_ordered (prev : A) (l : list A) :
  ordered comparefn (prev :: take (run_extent comparefn false prev l) l).
Proof.
  unfold ordered. revert prev.
  induction l as [|x l IH]; intros prev; simpl.
  { repeat constructor. }
  destruct (Z.leb_spec 0 (comparefn x prev)) as [Hle|_]; simpl.
  - specialize (IH x). constructor; [done|].
    apply (consistent_flip _ consistent) in Hle.
    apply StronglySorted_cons in IH as [Hall _].
    constructor; [done|].
    eapply Forall_impl; [exact Hall|]. simpl. intros y Hy.
    by eapply (consistent_trans _ consistent).
  - repeat constructor.
Qed.

Lemma descending_run_sorted (prev : A) (l : list A) :
  StronglySorted (fun a b => comparefn b a < 0)
    (prev :: take (run_extent comparefn true prev l) l).
Proof.
  revert prev. induction l as [|x l IH]; intros prev; simpl.
  { repeat constructor. }
  destruct (Z.ltb_spec (comparefn x prev) 0) as [Hlt|_]; simpl.
  - specialize (IH x). constructor; [done|].
    apply StronglySorted_cons in IH as [Hall _].
    constructor; [done|].
    eapply Forall_impl; [exact Hall|]. simpl. intros y Hy.
    eapply (consistent_before _ consistent); [exact Hy|lia].
  - repeat constructor.
Qed.

Lemma reverse_descending_ordered (l : list A) :
  StronglySorted (fun a b => comparefn b a < 0) l ->
  ordered comparefn (reverse l).
Proof.
  unfold ordered. induction 1 as [|a l Hl IH Hall]; [constructor|].
  rewrite reverse_cons. apply StronglySorted_app. split_and!; [|done|].
  - intros x1 x2 Hx1 Hx2. apply list_elem_of_singleton in Hx2 as ->.
    rewrite elem_of_reverse in Hx1.
    rewrite Forall_forall in Hall. specialize (Hall _ Hx1). lia.
  - repeat constructor.
Qed.

Lemma CountAndMakeRun_ordered (l : list A) :
  ordered comparefn (CountAndMakeRun comparefn l).1.
Proof.
  destruct l as [|x0 [|x1 l']]; simpl; [repeat constructor..|].
  destruct (Z.ltb_spec (comparefn x1 x0) 0) as [Hlt|Hge]; simpl.
  - apply reverse_descending_ordered.
    pose proof (descending_run_sorted x0 (x1 :: l')) as H. simpl in H.
    destruct (Z.ltb_spec (comparefn x1 x0) 0); [done|lia].
  - pose proof (ascending_run_ordered x0 (x1 :: l')) as H. simpl in H.
    destruct (Z.leb_spec 0 (comparefn x1 x0)); [done|lia].
Qed.

(** With a consistent comparison the sorted array is in its order. *)
Lemma js_sort_ordered (l : list A) : ordered comparefn (js_sort comparefn l).
Proof.
  unfold js_sort.
  pose proof (CountAndMakeRun_ordered l) as H.
  destruct (CountAndMakeRun comparefn l) as [run rest]; simpl in H.
  by apply BinaryInsertionSort_ordered.
Qed.

(** The element that [pop] takes from a sorted array: nothing of the array
    stands after it in the order. *)
Lemma ordered_last (l : list A) (x : A) :
  ordered comparefn (l ++ [x]) -> forall y, y ∈ l -> comparefn y x <= 0.
Proof.
  unfold ordered. intros H y Hy.
  apply StronglySorted_app in H as (Hcross & _ & _).
  apply Hcross; [done|]. by apply list_elem_of_singleton.
Qed.
End SortOrdered.

(** ** The comparison functions of the store *)

Lemma newest_first_consistent : Consistent newest_first.
Proof. split; unfold newest_first; intros; lia. Qed.

Lemma most_counted_first_consistent : Consistent most_counted_first.
Proof.
  split; unfold most_counted_first; intros *;
    repeat case_bool_decide; intros; lia.
Qed.

Lemma time_less_never_negative (a b : record) : 0 <= time_less a b.
Proof. unfold time_less. case_bool_decide; lia. Qed.

Lemma count_less_never_negative (a b : record) : 0 <= count_less a b.
Proof. unfold count_less. case_bool_decide; lia. Qed.

(** ** Reading and writing *)

Lemma stored_write (s : StateManagement) (name name' : string) (entries : list record) :
  stored (writeArrayEntries s name entries) name' =
  if decide (name' = name) then entries else stored s name'.
Proof.
  unfold stored, reads_file, writeArrayEntries; simpl.
  destruct (filePersistance s); simpl; case_decide; subst;
    rewrite ?lookup_insert_eq, ?lookup_insert_ne by done; simpl; done.
Qed.

Lemma stored_write_eq (s : StateManagement) (name : string) (entries : list record) :
  stored (writeArrayEntries s name entries) name = entries.
Proof. rewrite stored_write. by case_decide. Qed.

Lemma stored_write_ne (s : StateManagement) (name name' : string) (entries : list record) :
  name' <> name -> stored (writeArrayEntries s name entries) name' = stored s name'.
Proof. intros. rewrite stored_write. by case_decide. Qed.

(** What an in-place sort leaves under each name. *)
Lemma stored_sorted_in_place (s : StateManagement) (name name' : string)
    (sorted : list record) :
  stored (sorted_in_place s name sorted) name' =
  if decide (name' = name) then
    if reads_file s name then stored s name
    else match localPersistance s !! name with
         | Some _ => sorted
         | None => stored s name
         end
  else stored s name'.
Proof.
  unfold sorted_in_place.
  destruct (reads_file s name) eqn:Hfile.
  { case_decide; by subst. }
  destruct (localPersistance s !! name) as [l|] eqn:Hlocal; simpl.
  - unfold stored, reads_file in *; simpl.
    case_decide; subst.
    + rewrite Hfile. by rewrite lookup_insert_eq.
    + by rewrite lookup_insert_ne.
  - case_decide; by subst.
Qed.

Lemma stored_sorted_in_place_perm (s : StateManagement) (name name' : string)
    (sorted : list record) :
  sorted ≡ₚ stored s name ->
  stored (sorted_in_place s name sorted) name' ≡ₚ stored s name'.
Proof.
  intros H. rewrite stored_sorted_in_place.
  case_decide; subst; [|done].
  destruct (reads_file s name); [done|].
  by destruct (localPersistance s !! name).
Qed.

Lemma sorted_in_place_flag (s : StateManagement) (name : string) (sorted : list record) :
  filePersistance (sorted_in_place s name sorted) = filePersistance s.
Proof.
  unfold sorted_in_place.
  destruct (reads_file s name); [done|].
  by destruct (localPersistance s !! name).
Qed.

Lemma sorted_in_place_disk (s : StateManagement) (name : string) (sorted : list record) :
  disk (sorted_in_place s name sorted) = disk s.
Proof.
  unfold sorted_in_place.
  destruct (reads_file s name); [done|].
  by destruct (localPersistance s !! name).
Qed.

(** A read in stored order returns the stored array and changes nothing. *)
Lemma getArrayContent_unordered (s : StateManagement) (name : string) :
  getArrayContent s name false = (stored s name, s).
Proof. done. Qed.

Lemma getArrayContent_ordered (s : StateManagement) (name : string) :
  getArrayContent s name true =
  (js_sort time_less (stored s name),
   sorted_in_place s name (js_sort time_less (stored s name))).
Proof. done. Qed.

Lemma getArrayContent_perm (s : StateManagement) (name : string) (order : bool) :
  (getArrayContent s name order).1 ≡ₚ stored s name.
Proof. destruct order; simpl; [apply js_sort_perm|done]. Qed.

Lemma getArrayContent_stored_perm (s : StateManagement) (name name' : string)
    (order : bool) :
  stored (getArrayContent s name order).2 name' ≡ₚ stored s name'.
Proof.
  destruct order; simpl; [|done].
  apply stored_sorted_in_place_perm, js_sort_perm.
Qed.

(** ** Inserting *)

Lemma addArrayEntry_accepted (s : StateManagement) (now : Z) (name : string)
    (e : value) (amount : option nat) (increment : bool) :
  _canAdd e = Normal true ->
  addArrayEntry s now name e amount increment =
  Normal (writeArrayEntries s name
            (inserted_content newest_first now (stored s name) e amount increment)).
Proof. intros H. unfold addArrayEntry. by rewrite H. Qed.

Lemma addArrayCountEntry_accepted (s : StateManagement) (now : Z) (name : string)
    (e : value) (amount : option nat) (increment : bool) :
  _canAdd e = Normal true ->
  addArrayCountEntry s now name e amount increment =
  Normal (writeArrayEntries s name
            (inserted_content most_counted_first now (stored s name) e amount increment)).
Proof. intros H. unfold addArrayCountEntry. by rewrite H. Qed.

Lemma addArrayEntry_not_accepted (s : StateManagement) (now : Z) (name : string)
    (e : value) (amount : option nat) (increment : bool) :
  _canAdd e <> Normal true ->
  settle s (addArrayEntry s now name e amount increment) = s.
Proof.
  intros H. unfold addArrayEntry.
  destruct (_canAdd e) as [[]|]; done.
Qed.

Lemma addArrayCountEntry_not_accepted (s : StateManagement) (now : Z) (name : string)
    (e : value) (amount : option nat) (increment : bool) :
  _canAdd e <> Normal true ->
  settle s (addArrayCountEntry s now name e amount increment) = s.
Proof.
  intros H. unfold addArrayCountEntry.
  destruct (_canAdd e) as [[]|]; done.
Qed.

(** ** Capacity *)

Lemma _incrementIfExists_length (now : Z) (content : list record) (e : value) :
  length (_incrementIfExists now content e).2 = length content.
Proof.
  induction content as [|x rest IH]; simpl; [done|].
  case_bool_decide; simpl; [done|].
  destruct (_incrementIfExists now rest e); simpl in *. by rewrite IH.
Qed.

Lemma increment_or_push_length (now : Z) (content : list record) (e : value)
    (increment : bool) :
  (length (increment_or_push now content e increment) <= S (length content))%nat.
Proof.
  unfold increment_or_push.
  pose proof (_incrementIfExists_length now content e) as H.
  destruct (_incrementIfExists now content e) as [found content']; simpl in H.
  destruct increment, found; simpl; rewrite ?length_app; simpl; lia.
Qed.

Lemma pop_length (content : list record) :
  length (pop content) = pred (length content).
Proof.
  unfold pop. rewrite removelast_firstn_len, length_take. lia.
Qed.

Lemma reduce_length (comparefn : record -> record -> Z) (k : nat)
    (content : list record) :
  (length content <= S k)%nat ->
  (length (reduce comparefn (Some k) content) <= k)%nat.
Proof.
  intros H. unfold reduce.
  destruct (Nat.ltb_spec k (length content)); [|lia].
  rewrite pop_length, js_sort_length. lia.
Qed.

Lemma inserted_content_length (comparefn : record -> record -> Z) (now : Z)
    (content : list record) (e : value) (k : nat) (increment : bool) :
  (length content <= k)%nat ->
  (length (inserted_content comparefn now content e (Some k) increment) <= k)%nat.
Proof.
  intros H. apply reduce_length.
  pose proof (increment_or_push_length now content e increment). lia.
Qed.

(** What a call leaves under the names it does not write. *)
Lemma stored_sendSecondHits (LocalTZA : Z -> bool -> Z) (s : StateManagement)
    (adjusted current : Z) (name : string) :
  stored (sendSecondHits LocalTZA s adjusted current).2 name =
  if decide (name = "hits"%string) then
    filter (between (five_seconds_back LocalTZA
                       (five_seconds_back LocalTZA
                          (five_seconds_back LocalTZA (Some adjusted)))) current)
           (js_sort time_less (stored s "hits"))
  else stored s name.
Proof.
  unfold sendSecondHits. rewrite getArrayContent_ordered. cbn [snd].
  rewrite stored_write. case_decide; [done|].
  rewrite stored_sorted_in_place. by case_decide.
Qed.

Lemma step_within_capacity (s : StateManagement) (name : string) (k : nat) (c : call) :
  within_capacity name k c ->
  (length (stored s name) <= k)%nat ->
  (length (stored (step s c) name) <= k)%nat.
Proof.
  intros Hc Hs. destruct c as [now n e amount inc|now n e amount inc|n m o|n entries|n| | |zone adj cur];
    cbn [step within_capacity] in *.
  - destruct (_canAdd e) as [[]|] eqn:Hadd.
    + rewrite addArrayEntry_accepted by done. simpl.
      rewrite stored_write. case_decide; [subst|done].
      rewrite Hc by done. by apply inserted_content_length.
    + rewrite addArrayEntry_not_accepted; [done|congruence].
    + rewrite addArrayEntry_not_accepted; [done|congruence].
  - destruct (_canAdd e) as [[]|] eqn:Hadd.
    + rewrite addArrayCountEntry_accepted by done. simpl.
      rewrite stored_write. case_decide; [subst|done].
      rewrite Hc by done. by apply inserted_content_length.
    + rewrite addArrayCountEntry_not_accepted; [done|congruence].
    + rewrite addArrayCountEntry_not_accepted; [done|congruence].
  - unfold getArrayEntries.
    pose proof (getArrayContent_stored_perm s n name o) as H.
    destruct (getArrayContent s n o) as [content s']; simpl in *.
    by rewrite H.
  - rewrite stored_write. case_decide; auto.
  - unfold removeArrayEntries. rewrite stored_write. case_decide; simpl; [lia|done].
  - unfold sendTopSizes. simpl.
    rewrite stored_sorted_in_place_perm; [done|apply js_sort_perm].
  - unfold sendTopReferences. simpl.
    rewrite stored_sorted_in_place_perm; [done|apply js_sort_perm].
  - rewrite stored_sendSecondHits. case_decide; [subst|done].
    etrans; [apply length_filter|]. by rewrite js_sort_length.
Qed.

(** C3: a collection of capacity [k] that holds at most [k] records holds at
    most [k] records after every call of a sequence of inserts (by
    addArrayEntry or addArrayCountEntry, reads allowed in between) that treat
    it as a collection of capacity [k]; the fresh, empty collection is the
    case [stored s name = []]. *)
Theorem capacity_is_kept (s : StateManagement) (name : string) (k : nat)
    (calls : list call) (n : nat) :
  (length (stored s name) <= k)%nat ->
  Forall (within_capacity name k) calls ->
  (length (stored (run s (take n calls)) name) <= k)%nat.
Proof.
  intros Hs Hcalls.
  assert (Forall (within_capacity name k) (take n calls)) as Htake
    by (by apply Forall_take).
  clear Hcalls. revert s Hs.
  induction Htake as [|c calls' Hc _ IH]; intros s Hs; simpl; [done|].
  apply IH. by apply step_within_capacity.
Qed.

Lemma capacity_is_kept_witness :
  (length (stored fresh "paths") <= 2)%nat /\
  (length (stored (run fresh (take 4
     [AddArrayEntry 1 "paths" (VStr "/img/1/1") (Some 2%nat) true;
      AddArrayCountEntry 2 "paths" (VStr "/img/2/2") (Some 2%nat) true;
      GetArrayEntries "paths" true true;
      AddArrayEntry 3 "paths" (VStr "/img/3/3") (Some 2%nat) true;
      AddArrayEntry 4 "hits" (VStr "/img/3/3") None false])) "paths") <= 2)%nat.
Proof.
  split; [vm_compute; lia|].
  apply (capacity_is_kept fresh "paths" 2).
  - vm_compute. lia.
  - repeat constructor; simpl; congruence.
Defined.

(** ** Rejected values *)

(** [undefined], [null] and the empty string are dropped without a word. *)
Lemma nil_and_empty_string_ignored (s : StateManagement) (now : Z) (name : string)
    (e : value) (amount : option nat) (increment : bool) :
  e = VUndefined \/ e = VNull \/ e = VStr "" ->
  addArrayEntry s now name e amount increment = Normal s /\
  addArrayCountEntry s now name e amount increment = Normal s.
Proof. intros [->|[->| ->]]; done. Qed.

(** An array never gets past line 446. *)
Lemma _canAdd_array (elems : list json) :
  _canAdd (VArr elems) = Throw (ReferenceError "a").
Proof. done. Qed.

(** C8: the insert of an empty list is not a silent no-op.  Line 446 tests
    [a.length] where no [a] is bound, so addArrayEntry and addArrayCountEntry
    throw a ReferenceError for it, in every state (the stored records are
    untouched, and [undefined], [null] and the empty string are ignored
    silently, see [nil_and_empty_string_ignored]). *)
Theorem empty_list_throws (s : StateManagement) (now : Z) (name : string)
    (amount : option nat) (increment : bool) :
  addArrayEntry s now name (VArr []) amount increment = Throw (ReferenceError "a") /\
  addArrayCountEntry s now name (VArr []) amount increment = Throw (ReferenceError "a").
Proof. done. Qed.

(** ** The order of a read *)

(** The comparison of line 386 answers [true] or [false], never a negative
    number: the sort of a read moves nothing. *)
Lemma read_keeps_stored_order (s : StateManagement) (name : string) (order : bool) :
  (getArrayContent s name order).1 = stored s name.
Proof.
  destruct order; [|done].
  rewrite getArrayContent_ordered. simpl.
  apply js_sort_never_negative, time_less_never_negative.
Qed.

(** C6: two texts recorded one after the other are read back oldest first:
    the read with [order = true] returns ["a"; "b"] where the most recent
    text, "b", should be first. *)
Theorem recent_texts_oldest_first :
  (sendRecentTexts
     (run fresh
        [AddArrayEntry 1000 "texts" (VStr "a") (Some 10%nat) true;
         AddArrayEntry 2000 "texts" (VStr "b") (Some 10%nat) true])).1
  = [VStr "a"; VStr "b"].
Proof. vm_compute. reflexivity. Qed.

(** C7: a size requested once and then a size requested twice come back in
    that order, [n = 1] before [n = 2], and so do two referrers: the top
    lists are not sorted by descending count.  The elements do have the
    shapes [{n, w, h}] and [{ref, n}]. *)
Theorem top_lists_least_requested_first :
  (sendTopSizes
     (run fresh
        [AddArrayCountEntry 1000 "sizes-all" (VSize 100 100) (Some 10%nat) true;
         AddArrayCountEntry 2000 "sizes-all" (VSize 200 200) (Some 10%nat) true;
         AddArrayCountEntry 3000 "sizes-all" (VSize 200 200) (Some 10%nat) true])).1
  = [JObj [("n"%string, JNum 1); ("w"%string, JNum 100); ("h"%string, JNum 100)];
     JObj [("n"%string, JNum 2); ("w"%string, JNum 200); ("h"%string, JNum 200)]] /\
  (sendTopReferences
     (run fresh
        [AddArrayCountEntry 1000 "references" (VStr "http://a/") (Some 10%nat) true;
         AddArrayCountEntry 2000 "references" (VStr "http://b/") (Some 10%nat) true;
         AddArrayCountEntry 3000 "references" (VStr "http://b/") (Some 10%nat) true])).1
  = [JObj [("ref"%string, JStr "http://a/"); ("n"%string, JNum 1)];
     JObj [("ref"%string, JStr "http://b/"); ("n"%string, JNum 2)]].
Proof. split; vm_compute; reflexivity. Qed.

(** The top lists come in stored order as well: the comparisons of lines 762
    and 773 answer booleans too. *)
Lemma top_sizes_in_stored_order (s : StateManagement) :
  (sendTopSizes s).1 =
  (fun x => JObj (Object_assign [("n"%string, JNum (count x))] (entry x)))
    <$> stored s "sizes-all".
Proof.
  unfold sendTopSizes. rewrite getArrayContent_unordered. simpl.
  by rewrite js_sort_never_negative by apply count_less_never_negative.
Qed.

Lemma top_size_shape (n w h : Z) :
  Object_assign [("n"%string, JNum n)] (VSize w h) =
  [("n"%string, JNum n); ("w"%string, JNum w); ("h"%string, JNum h)].
Proof. done. Qed.

(** ** Clearing *)

Lemma clearAllStats_empties (s : StateManagement) (name : string) :
  name ∈ ["hits"; "paths"; "texts"; "sizes"; "sizes-all"; "references"]%string ->
  stored (clearAllStats s) name = [].
Proof.
  intros Hname. unfold clearAllStats, removeArrayEntries.
  repeat (rewrite stored_write; case_decide; [done|]).
  repeat (apply elem_of_cons in Hname as [->|Hname]; [congruence|]).
  by apply elem_of_nil in Hname.
Qed.

(** ** Eviction *)

Lemma consistent_refl {A : Type} (comparefn : A -> A -> Z) (x : A) :
  Consistent comparefn -> comparefn x x <= 0.
Proof.
  intros H. destruct (Z.le_gt_cases 0 (comparefn x x)); [|lia].
  by apply (consistent_flip _ H).
Qed.

(** Over its capacity the content is sorted and loses its last record:
    every record of the content may stand before the one that leaves. *)
Lemma reduce_evicts (comparefn : record -> record -> Z) (k : nat)
    (content : list record) :
  Consistent comparefn ->
  (k < length content)%nat ->
  exists evicted,
    js_sort comparefn content = reduce comparefn (Some k) content ++ [evicted] /\
    content ≡ₚ evicted :: reduce comparefn (Some k) content /\
    forall r, r ∈ content -> comparefn r evicted <= 0.
Proof.
  intros Hc Hk. unfold reduce.
  destruct (Nat.ltb_spec k (length content)) as [_|]; [|lia].
  assert (js_sort comparefn content <> []) as Hne.
  { intros H. apply js_sort_nil_inv in H. subst. simpl in Hk. lia. }
  pose proof (app_removelast_last (Record_ VUndefined 0 0) Hne) as Hsplit.
  set (evicted := List.last _ _) in Hsplit.
  exists evicted. unfold pop. split; [done|].
  assert (content ≡ₚ evicted :: removelast (js_sort comparefn content)) as Hperm.
  { rewrite <- (js_sort_perm comparefn content) at 1.
    rewrite Hsplit at 1. by rewrite <- Permutation_cons_append. }
  split; [done|].
  intros r Hr. rewrite Hperm in Hr.
  apply elem_of_cons in Hr as [->|Hr]; [by apply consistent_refl|].
  eapply (ordered_last comparefn (removelast (js_sort comparefn content))); [|done].
  rewrite <- Hsplit. by apply js_sort_ordered.
Qed.

Lemma reduce_under (comparefn : record -> record -> Z) (k : nat)
    (content : list record) :
  (length content <= k)%nat -> reduce comparefn (Some k) content = content.
Proof.
  intros H. unfold reduce. destruct (Nat.ltb_spec k (length content)); [lia|done].
Qed.

(** C4: frequency eviction.  When addArrayCountEntry leaves the content
    longer than the capacity, one record leaves; it has the smallest count
    of the content and, among the records of that count, the smallest time.
    In particular, of three records with the counts 1, 1 and 5 the one that
    leaves has count 1, and it is the older of the two when their times
    differ. *)
Theorem frequency_eviction (s : StateManagement) (now : Z) (name : string)
    (e : value) (k : nat) (increment : bool) :
  let content := increment_or_push now (stored s name) e increment in
  _canAdd e = Normal true ->
  (k < length content)%nat ->
  exists s' evicted,
    addArrayCountEntry s now name e (Some k) increment = Normal s' /\
    content ≡ₚ evicted :: stored s' name /\
    (forall r, r ∈ content ->
       count evicted <= count r /\
       (count r = count evicted -> time evicted <= time r)) /\
    (forall a b c, content ≡ₚ [a; b; c] ->
       count a = 1 -> count b = 1 -> count c = 5 ->
       count evicted = 1 /\
       (time a < time b -> evicted = a /\ stored s' name ≡ₚ [b; c])).
Proof.
  intros content Hadd Hk.
  destruct (reduce_evicts most_counted_first k content
              most_counted_first_consistent Hk) as (evicted & _ & Hperm & Hmin).
  eexists _, evicted. split; [by apply addArrayCountEntry_accepted|].
  rewrite stored_write_eq. fold content.
  assert (forall r, r ∈ content ->
            count evicted <= count r /\
            (count r = count evicted -> time evicted <= time r)) as Hleast.
  { intros r Hr. specialize (Hmin r Hr). unfold most_counted_first in Hmin.
    case_bool_decide; lia. }
  split; [done|]. split; [done|].
  intros a b c Habc Ha Hb Hc.
  assert (evicted ∈ content) as Hin by (rewrite Hperm; left).
  assert (a ∈ content /\ b ∈ content /\ c ∈ content) as (Hina & Hinb & Hinc).
  { rewrite Habc, !elem_of_cons. tauto. }
  pose proof (Hleast a Hina) as [Hca Hta].
  pose proof (Hleast b Hinb) as [Hcb Htb].
  rewrite Habc in Hin.
  assert (evicted = a \/ evicted = b) as Hab.
  { set_unfold in Hin. destruct Hin as [->|[->|[->|[]]]]; [by left|by right|lia]. }
  split; [destruct Hab as [->| ->]; done|].
  intros Hlt.
  assert (evicted = a) as -> by (destruct Hab as [->| ->]; [done|lia]).
  split; [done|].
  apply (Permutation_cons_inv (a := a)).
  etrans; [symmetry; exact Hperm|exact Habc].
Qed.

Lemma frequency_eviction_witness :
  let s := writeArrayEntries fresh "sizes-all"
             [Record_ (VSize 1 1) 1000 5; Record_ (VSize 2 2) 2000 1] in
  exists s' evicted,
    addArrayCountEntry s 3000 "sizes-all" (VSize 3 3) (Some 2%nat) true = Normal s' /\
    evicted = Record_ (VSize 2 2) 2000 1 /\
    stored s' "sizes-all" ≡ₚ [Record_ (VSize 3 3) 3000 1; Record_ (VSize 1 1) 1000 5].
Proof.
  intros s.
  destruct (frequency_eviction s 3000 "sizes-all" (VSize 3 3) 2 true)
    as (s' & evicted & Hs' & _ & _ & Hthree); [reflexivity|vm_compute; lia|].
  destruct (Hthree (Record_ (VSize 2 2) 2000 1) (Record_ (VSize 3 3) 3000 1)
              (Record_ (VSize 1 1) 1000 5)) as [_ Holder];
    [exact (Permutation_cons_append [_; _] _)|reflexivity..|].
  destruct Holder as [-> Hrest]; [simpl; lia|].
  by exists s', (Record_ (VSize 2 2) 2000 1).
Defined.

Lemma _incrementIfExists_absent (now : Z) (content : list record) (e : value) :
  e ∉ entry <$> content -> _incrementIfExists now content e = (false, content).
Proof.
  induction content as [|x rest IH]; simpl; [done|].
  rewrite not_elem_of_cons. intros [Hx Hrest].
  rewrite bool_decide_eq_false_2 by congruence.
  by rewrite IH.
Qed.

Lemma increment_or_push_absent (now : Z) (content : list record) (e : value)
    (increment : bool) :
  e ∉ entry <$> content ->
  increment_or_push now content e increment = content ++ [fresh_record e now].
Proof.
  intros H. unfold increment_or_push.
  rewrite _incrementIfExists_absent by done. by destruct increment.
Qed.

Lemma run_app (s : StateManagement) (calls calls' : list call) :
  run s (calls ++ calls') = run (run s calls) calls'.
Proof. apply fold_left_app. Qed.

(** Distinct entries recorded in a collection with room for them are
    appended in the order of their arrival. *)
Lemma stored_record_all_under (s : StateManagement) (name : string) (k : nat)
    (es : list (value * Z)) :
  Forall (fun p => _canAdd p.1 = Normal true) es ->
  NoDup ((entry <$> stored s name) ++ es.*1) ->
  (length (stored s name) + length es <= k)%nat ->
  stored (run s (record_all name k es)) name =
  stored s name ++ ((fun p => fresh_record p.1 p.2) <$> es).
Proof.
  revert s. induction es as [|[e t] es IH]; intros s Hadd Hnodup Hlen.
  { simpl. by rewrite app_nil_r. }
  apply Forall_cons in Hadd as [He Hes]. simpl in He, Hnodup, Hlen.
  assert (e ∉ entry <$> stored s name) as Habsent.
  { apply NoDup_app in Hnodup as (_ & Hdisj & _).
    intros Hin. apply (Hdisj e Hin). left. }
  assert (inserted_content newest_first t (stored s name) e (Some k) true
          = stored s name ++ [fresh_record e t]) as Hcontent.
  { unfold inserted_content. rewrite increment_or_push_absent by done.
    apply reduce_under. rewrite length_app. simpl. lia. }
  change (run s (record_all name k ((e, t) :: es)))
    with (run (step s (AddArrayEntry t name e (Some k) true)) (record_all name k es)).
  cbn [step]. rewrite addArrayEntry_accepted by done. cbn [settle].
  rewrite Hcontent.
  rewrite IH; rewrite ?stored_write_eq; [|done| |].
  - by rewrite <- app_assoc.
  - rewrite fmap_app, <- app_assoc. simpl.
    apply NoDup_app in Hnodup as (H1 & H2 & H3).
    apply NoDup_app. split_and!; [done| |done].
    intros x Hx. by apply H2.
  - rewrite length_app. simpl. lia.
Qed.

(** C5: recency eviction.  When addArrayEntry leaves the content longer than
    the capacity, one record leaves and no record of the content is older
    than it.  In particular, [k + 1] distinct entries recorded with strictly
    increasing times in an empty collection of capacity [k] leave the [k]
    most recent ones stored: the first one is gone. *)
Theorem recency_eviction :
  (forall (s : StateManagement) (now : Z) (name : string) (e : value) (k : nat)
          (increment : bool),
     let content := increment_or_push now (stored s name) e increment in
     _canAdd e = Normal true ->
     (k < length content)%nat ->
     exists s' evicted,
       addArrayEntry s now name e (Some k) increment = Normal s' /\
       content ≡ₚ evicted :: stored s' name /\
       forall r, r ∈ content -> time evicted <= time r) /\
  (forall (s : StateManagement) (name : string) (k : nat) (first : value * Z)
          (rest : list (value * Z)),
     stored s name = [] ->
     length rest = k ->
     Forall (fun p => _canAdd p.1 = Normal true) (first :: rest) ->
     NoDup ((first :: rest).*1) ->
     Sorted Z.lt ((first :: rest).*2) ->
     let s' := run s (record_all name k (first :: rest)) in
     stored s' name ≡ₚ (fun p => fresh_record p.1 p.2) <$> rest /\
     first.1 ∉ entry <$> stored s' name).
Proof.
  split.
  - intros s now name e k increment content Hadd Hk.
    destruct (reduce_evicts newest_first k content newest_first_consistent Hk)
      as (evicted & _ & Hperm & Hmin).
    eexists _, evicted. split; [by apply addArrayEntry_accepted|].
    rewrite stored_write_eq. split; [done|].
    intros r Hr. specialize (Hmin r Hr). unfold newest_first in Hmin. lia.
  - intros s name k first rest Hempty Hlen Hadd Hnodup Hsorted s'.
    assert (stored s' name ≡ₚ (fun p => fresh_record p.1 p.2) <$> rest) as Hrest.
    { set (es := first :: rest) in *.
      assert (es <> []) as Hne by done.
      pose proof (app_removelast_last first Hne) as Hsplit.
      set (init := removelast es) in *. set (lst := List.last es first) in *.
      assert (length init = k) as Hinit.
      { apply (f_equal length) in Hsplit. rewrite length_app in Hsplit.
        simpl in Hsplit. lia. }
      rewrite Hsplit in Hadd, Hnodup.
      apply Forall_app in Hadd as [Hadd_init Hadd_lst].
      rewrite Forall_singleton in Hadd_lst.
      rewrite fmap_app in Hnodup. apply NoDup_app in Hnodup as (Hnd_init & Hdisj & _).
      subst s'. rewrite Hsplit at 1.
      unfold record_all. rewrite fmap_app. fold (record_all name k init).
      rewrite run_app. simpl.
      set (s1 := run s (record_all name k init)).
      assert (stored s1 name = (fun p => fresh_record p.1 p.2) <$> init) as Hs1.
      { subst s1. rewrite stored_record_all_under; rewrite ?Hempty; simpl;
          [done|done|done|lia]. }
      rewrite addArrayEntry_accepted by done. simpl. rewrite stored_write_eq.
      unfold inserted_content.
      assert (lst.1 ∉ entry <$> stored s1 name) as Habsent.
      { rewrite Hs1, <- list_fmap_compose. intros Hin.
        apply (Hdisj lst.1); [exact Hin|]. simpl. left. }
      rewrite increment_or_push_absent by done. rewrite Hs1.
      set (content := _ ++ [fresh_record lst.1 lst.2]).
      assert (content = (fun p => fresh_record p.1 p.2) <$> es) as Hcontent.
      { subst content.
        trans ((fun p => fresh_record p.1 p.2) <$> (init ++ [lst]));
          [by rewrite fmap_app|by rewrite <- Hsplit]. }
      destruct (reduce_evicts newest_first k content newest_first_consistent)
        as (evicted & _ & Hperm & Hmin).
      { rewrite Hcontent, length_fmap. subst es. simpl. lia. }
      rewrite Hcontent in Hperm at 1. rewrite Hcontent in Hmin.
      subst es. simpl in Hperm, Hmin.
      assert (evicted = fresh_record first.1 first.2) as ->.
      { assert (evicted ∈ fresh_record first.1 first.2
                           :: ((fun p => fresh_record p.1 p.2) <$> rest)) as Hin
          by (rewrite Hperm; left).
        apply elem_of_cons in Hin as [->|Hin]; [done|].
        apply list_elem_of_fmap in Hin as (p & -> & Hp).
        specialize (Hmin (fresh_record first.1 first.2) ltac:(left)).
        unfold newest_first in Hmin. simpl in Hmin, Hsorted.
        apply Sorted_StronglySorted in Hsorted; [|apply _].
        apply StronglySorted_cons in Hsorted as [Hall _].
        rewrite Forall_forall in Hall.
        specialize (Hall p.2 ltac:(by apply list_elem_of_fmap_2)). lia. }
      by apply Permutation_cons_inv in Hperm. }
    split; [done|].
    rewrite Hrest, <- list_fmap_compose.
    simpl in Hnodup. apply NoDup_cons in Hnodup as [Hfirst _].
    exact Hfirst.
Qed.

Lemma recency_eviction_witness :
  (exists s' evicted,
     addArrayEntry
       (writeArrayEntries fresh "paths"
          [Record_ (VStr "/img/1/1") 2000 1; Record_ (VStr "/img/2/2") 1000 3])
       3000 "paths" (VStr "/img/3/3") (Some 2%nat) true = Normal s' /\
     time evicted <= 1000) /\
  stored (run fresh (record_all "paths" 2
            [(VStr "/img/1/1", 1000); (VStr "/img/2/2", 2000); (VStr "/img/3/3", 3000)]))
         "paths"
  ≡ₚ [fresh_record (VStr "/img/2/2") 2000; fresh_record (VStr "/img/3/3") 3000].
Proof.
  split.
  - destruct (proj1 recency_eviction
                (writeArrayEntries fresh "paths"
                   [Record_ (VStr "/img/1/1") 2000 1; Record_ (VStr "/img/2/2") 1000 3])
                3000 "paths" (VStr "/img/3/3") 2%nat true)
      as (s' & evicted & Hs' & _ & Hmin); [reflexivity|vm_compute; lia|].
    exists s', evicted. split; [done|].
    apply (Hmin (Record_ (VStr "/img/2/2") 1000 3)).
    vm_compute. right. left.
  - apply (proj2 recency_eviction fresh "paths" 2%nat (VStr "/img/1/1", 1000)
             [(VStr "/img/2/2", 2000); (VStr "/img/3/3", 3000)]).
    + reflexivity.
    + reflexivity.
    + repeat constructor.
    + apply (bool_decide_unpack _). vm_compute. exact I.
    + simpl. repeat constructor; lia.
Defined.

(** ** Reads in memory *)

(** C10: in memory-only mode a read adds, removes and changes no record:
    under every name the stored records are the same up to their order,
    nothing but the array of the name read is touched, and a read with
    [order = false] changes nothing at all.  A read with [order = true]
    sorts the stored array in place: what is stored afterwards is the sorted
    array, which is also the array the read returns. *)
Theorem read_keeps_records (s : StateManagement) (name : string) (map order : bool) :
  filePersistance s = false ->
  let s' := (getArrayEntries s name map order).2 in
  (forall name', stored s' name' ≡ₚ stored s name') /\
  (forall name', name' <> name ->
     localPersistance s' !! name' = localPersistance s !! name') /\
  filePersistance s' = false /\
  disk s' = disk s /\
  (order = false -> s' = s) /\
  (order = true ->
     stored s' name = js_sort time_less (stored s name) /\
     (getArrayContent s name order).1 = stored s' name).
Proof.
  intros Hmem s'.
  assert (s' = (getArrayContent s name order).2) as Hs'.
  { subst s'. unfold getArrayEntries. by destruct (getArrayContent s name order). }
  rewrite Hs'. clear Hs' s'.
  split_and!.
  - intros name'. apply getArrayContent_stored_perm.
  - intros name' Hne. destruct order; [|done].
    rewrite getArrayContent_ordered. simpl. unfold sorted_in_place.
    destruct (reads_file s name); [done|].
    destruct (localPersistance s !! name); [|done].
    simpl. by rewrite lookup_insert_ne.
  - destruct order; [|done]. rewrite getArrayContent_ordered. simpl.
    by rewrite sorted_in_place_flag.
  - destruct order; [|done]. rewrite getArrayContent_ordered. simpl.
    by rewrite sorted_in_place_disk.
  - by intros ->.
  - intros ->. rewrite getArrayContent_ordered. simpl.
    rewrite stored_sorted_in_place. case_decide; [|done].
    assert (reads_file s name = false) as ->
      by (unfold reads_file; by rewrite Hmem).
    unfold stored, reads_file. rewrite Hmem. simpl.
    by destruct (localPersistance s !! name).
Qed.

Lemma read_keeps_records_witness :
  let s := run fresh [AddArrayEntry 1000 "texts" (VStr "a") None true;
                      AddArrayEntry 2000 "texts" (VStr "b") None true] in
  stored (getArrayEntries s "texts" true true).2 "texts" ≡ₚ stored s "texts".
Proof.
  intros s.
  apply (proj1 (read_keeps_records s "texts" true true eq_refl)).
Defined.

(** ** Persistence *)

Lemma durable_new (d : gmap string (list record)) :
  durable (new_StateManagement d true).
Proof. split; [done|]. intros name _. apply lookup_empty. Qed.

Lemma durable_write (s : StateManagement) (name : string) (entries : list record) :
  durable s -> durable (writeArrayEntries s name entries).
Proof.
  intros [Hflag Hdisk]. split; [done|]. simpl. rewrite Hflag.
  intros name' Hnone.
  destruct (decide (name' = name)) as [->|Hne].
  - by rewrite lookup_insert_eq in Hnone.
  - rewrite lookup_insert_ne in Hnone by done.
    rewrite lookup_insert_ne by done. by apply Hdisk.
Qed.

Lemma durable_sorted_in_place (s : StateManagement) (name : string)
    (sorted : list record) :
  durable s -> durable (sorted_in_place s name sorted).
Proof.
  intros [Hflag Hdisk]. unfold sorted_in_place.
  destruct (reads_file s name); [done|].
  destruct (localPersistance s !! name) as [l|] eqn:Hl; [|done].
  split; [done|]. simpl. intros name' Hnone.
  destruct (decide (name' = name)) as [->|Hne].
  - rewrite Hdisk in Hl; done.
  - rewrite lookup_insert_ne by done. by apply Hdisk.
Qed.

Lemma durable_getArrayContent (s : StateManagement) (name : string) (order : bool) :
  durable s -> durable (getArrayContent s name order).2.
Proof.
  intros H. destruct order; [|done]. by apply durable_sorted_in_place.
Qed.

Lemma durable_step (s : StateManagement) (c : call) : durable s -> durable (step s c).
Proof.
  intros H.
  destruct c as [now n e amount inc|now n e amount inc|n m o|n entries|n| | |zone adj cur];
    cbn [step].
  - destruct (_canAdd e) as [[]|] eqn:Hadd.
    + rewrite addArrayEntry_accepted by done. by apply durable_write.
    + rewrite addArrayEntry_not_accepted; [done|congruence].
    + rewrite addArrayEntry_not_accepted; [done|congruence].
  - destruct (_canAdd e) as [[]|] eqn:Hadd.
    + rewrite addArrayCountEntry_accepted by done. by apply durable_write.
    + rewrite addArrayCountEntry_not_accepted; [done|congruence].
    + rewrite addArrayCountEntry_not_accepted; [done|congruence].
  - unfold getArrayEntries.
    pose proof (durable_getArrayContent s n o H) as H'.
    by destruct (getArrayContent s n o).
  - by apply durable_write.
  - by apply durable_write.
  - by apply durable_sorted_in_place.
  - by apply durable_sorted_in_place.
  - by apply durable_write, durable_sorted_in_place.
Qed.

Lemma durable_run (s : StateManagement) (calls : list call) :
  durable s -> durable (run s calls).
Proof.
  revert s. induction calls as [|c calls IH]; intros s H; simpl; [done|].
  by apply IH, durable_step.
Qed.

(** A durable store and a new store over its folder read the same records. *)
Lemma stored_restart (s : StateManagement) (name : string) :
  durable s -> stored (new_StateManagement (disk s) true) name = stored s name.
Proof.
  intros [Hflag Hdisk]. unfold stored, reads_file. simpl. rewrite Hflag. simpl.
  destruct (disk s !! name) as [l|] eqn:Hl; simpl.
  - done.
  - rewrite lookup_empty. by rewrite Hdisk.
Qed.

(** The result of a read is a function of the stored records. *)
Lemma getArrayEntries_result (s : StateManagement) (name : string) (map order : bool) :
  (getArrayEntries s name map order).1 =
  let content := if order then js_sort time_less (stored s name) else stored s name in
  if map then inl (entry <$> content) else inr content.
Proof. unfold getArrayEntries. by destruct order. Qed.

(** C9: with persistence on, (1) writeArrayEntries, and so the replace and
    the clear, leaves the records it is given in the file of the collection;
    (2) an accepted insert, by addArrayEntry or addArrayCountEntry, leaves
    the whole updated content in the file; (3) a read of a collection that
    has a file takes the records of the file and nothing else; (4) after any
    sequence of calls on a store created over a folder, a new store created
    over the same folder answers every read as the old one does. *)
Theorem writes_reach_the_disk :
  (forall (s : StateManagement) (name : string) (entries : list record),
     filePersistance s = true ->
     disk (writeArrayEntries s name entries) !! name = Some entries /\
     disk (removeArrayEntries s name) !! name = Some []) /\
  (forall (s : StateManagement) (now : Z) (name : string) (e : value)
          (amount : option nat) (increment : bool),
     filePersistance s = true ->
     _canAdd e = Normal true ->
     exists s1 s2,
       addArrayEntry s now name e amount increment = Normal s1 /\
       disk s1 !! name = Some (stored s1 name) /\
       stored s1 name = inserted_content newest_first now (stored s name) e amount increment /\
       addArrayCountEntry s now name e amount increment = Normal s2 /\
       disk s2 !! name = Some (stored s2 name) /\
       stored s2 name =
         inserted_content most_counted_first now (stored s name) e amount increment) /\
  (forall (s : StateManagement) (name : string) (entries : list record) (order : bool),
     filePersistance s = true ->
     disk s !! name = Some entries ->
     getArrayContent s name order =
     (if order then js_sort time_less entries else entries, s)) /\
  (forall (d : gmap string (list record)) (calls : list call) (name : string)
          (map order : bool),
     let s := run (new_StateManagement d true) calls in
     (getArrayEntries (new_StateManagement (disk s) true) name map order).1 =
     (getArrayEntries s name map order).1).
Proof.
  split_and!.
  - intros s name entries Hflag. unfold removeArrayEntries, writeArrayEntries.
    simpl. rewrite Hflag. by rewrite !lookup_insert_eq.
  - intros s now name e amount increment Hflag Hadd.
    exists (writeArrayEntries s name
              (inserted_content newest_first now (stored s name) e amount increment)),
           (writeArrayEntries s name
              (inserted_content most_counted_first now (stored s name) e amount increment)).
    rewrite addArrayEntry_accepted, addArrayCountEntry_accepted by done.
    rewrite !stored_write_eq. simpl. rewrite Hflag.
    by rewrite !lookup_insert_eq.
  - intros s name entries order Hflag Hdisk.
    assert (reads_file s name = true) as Hfile.
    { unfold reads_file. by rewrite Hflag, Hdisk. }
    assert (stored s name = entries) as Hstored
      by (unfold stored; by rewrite Hfile, Hdisk).
    destruct order; [|by rewrite getArrayContent_unordered, Hstored].
    rewrite getArrayContent_ordered, Hstored.
    unfold sorted_in_place. by rewrite Hfile.
  - intros d calls name map order s.
    rewrite !getArrayEntries_result.
    rewrite stored_restart; [done|].
    apply durable_run, durable_new.
Qed.

Lemma writes_reach_the_disk_witness :
  let s := new_StateManagement ∅ true in
  disk (writeArrayEntries s "hits" [Record_ (VStr "/img/1/1") 1000 1]) !! "hits"%string
    = Some [Record_ (VStr "/img/1/1") 1000 1] /\
  (exists s1, addArrayEntry s 1000 "paths" (VStr "/img/1/1") (Some 10%nat) true = Normal s1 /\
              disk s1 !! "paths"%string = Some (stored s1 "paths")) /\
  getArrayContent (writeArrayEntries s "hits" [Record_ (VStr "/img/1/1") 1000 1]) "hits" true
    = (js_sort time_less [Record_ (VStr "/img/1/1") 1000 1],
       writeArrayEntries s "hits" [Record_ (VStr "/img/1/1") 1000 1]).
Proof.
  intros s. destruct writes_reach_the_disk as (Hwrite & Hinsert & Hread & _).
  split_and!.
  - apply (Hwrite s "hits"); reflexivity.
  - destruct (Hinsert s 1000 "paths" (VStr "/img/1/1") (Some 10%nat) true eq_refl eq_refl)
      as (s1 & _ & Hs1 & Hdisk & _).
    by exists s1.
  - apply (Hread _ "hits" _ true); reflexivity.
Defined.
(** ** The windowed hit counter *)






(** The answer and the hits that are left, by the three dates. *)
Lemma sendSecondHits_response (LocalTZA : Z -> bool -> Z) (s : StateManagement)
    (adjusted current : Z) :
  let five := five_seconds_back LocalTZA (Some adjusted) in
  let ten := five_seconds_back LocalTZA five in
  let fifteen := five_seconds_back LocalTZA ten in
  (sendSecondHits LocalTZA s adjusted current).1 =
  [hit "5s" (length (filter (between five current) (stored s "hits")));
   hit "10s" (length (filter (between ten current) (stored s "hits")));
   hit "15s" (length (filter (between fifteen current) (stored s "hits")))].
Proof.
  intros five ten fifteen.
  unfold sendSecondHits. rewrite getArrayContent_ordered. cbn [fst].
  by rewrite js_sort_never_negative by apply time_less_never_negative.
Qed.


(** C1, in the hour that the end of daylight time repeats: the server runs
    in New York and is asked on 1 November 2026 at 01:30:20 standard time,
    with four hits stored, 3, 7, 12 and 20 seconds old.  Taking 5 seconds
    from the local time 01:30:20 gives 01:30:15, which is read as daylight
    time: the date moves back 3605 seconds.  The three counts are 4, 4 and
    4, and the hit of 20 seconds ago is kept.  The same store asked in UTC
    answers 1, 2 and 3 and keeps the three hits of the last 15 seconds. *)
Theorem second_hits_repeated_hour :
  let now := 1793514620000 in
  let s := run fresh
             [AddArrayEntry (now - 20000) "hits" (VStr "/img/1/1") None false;
              AddArrayEntry (now - 12000) "hits" (VStr "/img/1/1") None false;
              AddArrayEntry (now - 7000) "hits" (VStr "/img/2/2") None false;
              AddArrayEntry (now - 3000) "hits" (VStr "/img/1/1") None false] in
  let local := sendSecondHits America_New_York s now now in
  let utc := sendSecondHits Etc_UTC s now now in
  five_seconds_back America_New_York (Some now) = Some (now - 3605000) /\
  local.1 = [hit "5s" 4; hit "10s" 4; hit "15s" 4] /\
  stored local.2 "hits" =
    [Record_ (VStr "/img/1/1") (now - 20000) 1;
     Record_ (VStr "/img/1/1") (now - 12000) 1;
     Record_ (VStr "/img/2/2") (now - 7000) 1;
     Record_ (VStr "/img/1/1") (now - 3000) 1] /\
  utc.1 = [hit "5s" 1; hit "10s" 2; hit "15s" 3] /\
  stored utc.2 "hits" =
    [Record_ (VStr "/img/1/1") (now - 12000) 1;
     Record_ (VStr "/img/2/2") (now - 7000) 1;
     Record_ (VStr "/img/1/1") (now - 3000) 1].
Proof. vm_compute. by split_and!. Qed.

(** ** Merging *)

Lemma increment_or_push_cases (now : Z) (content : list record) (e : value) :
  ((e ∉ entry <$> content) /\
   increment_or_push now content e true = content ++ [fresh_record e now]) \/
  (exists l1 r l2,
     content = l1 ++ r :: l2 /\ entry r = e /\
     increment_or_push now content e true = l1 ++ _incrementEntry now r :: l2).
Proof.
  destruct (decide (e ∈ entry <$> content)) as [Hin|Hout].
  - right. unfold increment_or_push. simpl.
    induction content as [|x rest IH]; [by apply elem_of_nil in Hin|].
    simpl. case_bool_decide as Hx.
    + by exists [], x, rest.
    + rewrite fmap_cons, elem_of_cons in Hin.
      destruct Hin as [Hin|Hin]; [congruence|].
      destruct (IH Hin) as (l1 & r & l2 & -> & Hr & Heq).
      destruct (_incrementIfExists now (l1 ++ r :: l2) e) as [[] content'];
        simpl in *.
      * exists (x :: l1), r, l2. by rewrite Heq.
      * exfalso. apply (f_equal length) in Heq.
        rewrite !length_app in Heq. simpl in Heq. lia.
  - left. split; [done|]. by apply increment_or_push_absent.
Qed.

Lemma increment_or_push_entries (now : Z) (content : list record) (e : value) :
  entry <$> increment_or_push now content e true =
  if decide (e ∈ entry <$> content) then entry <$> content
  else (entry <$> content) ++ [e].
Proof.
  destruct (increment_or_push_cases now content e)
    as [[Hout ->]|(l1 & r & l2 & -> & Hr & ->)].
  - rewrite decide_False by done. by rewrite fmap_app.
  - rewrite decide_True; [by rewrite !fmap_app|].
    rewrite fmap_app, fmap_cons, Hr. apply elem_of_app. right. left.
Qed.

(** Over or under its capacity, the content loses at most one record. *)
Lemma reduce_cases (comparefn : record -> record -> Z) (amount : option nat)
    (content : list record) :
  reduce comparefn amount content = content \/
  exists evicted, content ≡ₚ evicted :: reduce comparefn amount content.
Proof.
  unfold reduce. destruct amount as [k|]; [|by left].
  destruct (Nat.ltb_spec k (length content)) as [Hk|]; [|by left].
  right.
  assert (js_sort comparefn content <> []) as Hne.
  { intros H. apply js_sort_nil_inv in H. subst. simpl in Hk. lia. }
  pose proof (app_removelast_last (Record_ VUndefined 0 0) Hne) as Hsplit.
  eexists. unfold pop.
  rewrite <- (js_sort_perm comparefn content) at 1.
  rewrite Hsplit at 1. by rewrite <- Permutation_cons_append.
Qed.

Lemma reduce_elem_of (comparefn : record -> record -> Z) (amount : option nat)
    (content : list record) (r : record) :
  r ∈ reduce comparefn amount content -> r ∈ content.
Proof.
  destruct (reduce_cases comparefn amount content) as [->|[evicted Hperm]]; [done|].
  intros Hr. rewrite Hperm. by right.
Qed.

Lemma reduce_NoDup (comparefn : record -> record -> Z) (amount : option nat)
    (content : list record) :
  NoDup (entry <$> content) -> NoDup (entry <$> reduce comparefn amount content).
Proof.
  destruct (reduce_cases comparefn amount content) as [->|[evicted Hperm]]; [done|].
  rewrite Hperm at 1. rewrite fmap_cons. by intros [_ ?]%NoDup_cons.
Qed.

Lemma times_inserted_snoc (name : string) (v : value) (calls : list call) (c : call) :
  times_inserted name v (calls ++ [c]) =
  times_inserted name v calls + (if inserts name v c then 1 else 0).
Proof.
  unfold times_inserted. rewrite filter_app, length_app, Nat2Z.inj_add.
  f_equal. rewrite filter_cons, filter_nil.
  destruct (inserts name v c); by case_decide.
Qed.

Lemma times_inserted_nonneg (name : string) (v : value) (calls : list call) :
  0 <= times_inserted name v calls.
Proof. unfold times_inserted. lia. Qed.

(** What a call of a merge-enabled collection does to its content: either it
    is an accepted insert, or the records stay and the call inserts no
    accepted value. *)
Lemma stored_step_merging (s : StateManagement) (name : string) (c : call) :
  merging name c ->
  (exists comparefn now e amount,
     _canAdd e = Normal true /\
     stored (step s c) name =
       inserted_content comparefn now (stored s name) e amount true /\
     (c = AddArrayEntry now name e amount true \/
      c = AddArrayCountEntry now name e amount true) /\
     forall v, inserts name v c = bool_decide (e = v)) \/
  (stored (step s c) name ≡ₚ stored s name /\
   forall v, inserts name v c = true -> _canAdd v <> Normal true).
Proof.
  intros Hc.
  destruct c as [now n e amount inc|now n e amount inc|n m o|n entries|n| | |zone adj cur];
    cbn [step merging inserts] in *.
  - destruct (decide (n = name)) as [->|Hne]; cycle 1.
    { right. split.
      - destruct (_canAdd e) as [[]|] eqn:Hadd.
        + rewrite addArrayEntry_accepted by done. simpl.
          by rewrite stored_write_ne.
        + rewrite addArrayEntry_not_accepted; [done|congruence].
        + rewrite addArrayEntry_not_accepted; [done|congruence].
      - intros v. by rewrite bool_decide_eq_false_2. }
    rewrite Hc by done.
    destruct (_canAdd e) as [[]|] eqn:Hadd.
    + left. exists newest_first, now, e, amount.
      rewrite addArrayEntry_accepted by done. simpl. rewrite stored_write_eq.
      split_and!; [done|done|auto|].
      intros v. by rewrite bool_decide_eq_true_2.
    + right. rewrite addArrayEntry_not_accepted by congruence.
      split; [done|]. intros v [_ Hv%bool_decide_eq_true]%andb_prop. congruence.
    + right. rewrite addArrayEntry_not_accepted by congruence.
      split; [done|]. intros v [_ Hv%bool_decide_eq_true]%andb_prop. congruence.
  - destruct (decide (n = name)) as [->|Hne]; cycle 1.
    { right. split.
      - destruct (_canAdd e) as [[]|] eqn:Hadd.
        + rewrite addArrayCountEntry_accepted by done. simpl.
          by rewrite stored_write_ne.
        + rewrite addArrayCountEntry_not_accepted; [done|congruence].
        + rewrite addArrayCountEntry_not_accepted; [done|congruence].
      - intros v. by rewrite bool_decide_eq_false_2. }
    rewrite Hc by done.
    destruct (_canAdd e) as [[]|] eqn:Hadd.
    + left. exists most_counted_first, now, e, amount.
      rewrite addArrayCountEntry_accepted by done. simpl. rewrite stored_write_eq.
      split_and!; [done|done|auto|].
      intros v. by rewrite bool_decide_eq_true_2.
    + right. rewrite addArrayCountEntry_not_accepted by congruence.
      split; [done|]. intros v [_ Hv%bool_decide_eq_true]%andb_prop. congruence.
    + right. rewrite addArrayCountEntry_not_accepted by congruence.
      split; [done|]. intros v [_ Hv%bool_decide_eq_true]%andb_prop. congruence.
  - right. split; [|done]. unfold getArrayEntries.
    pose proof (getArrayContent_stored_perm s n name o) as H.
    by destruct (getArrayContent s n o).
  - right. split; [|done]. by rewrite stored_write_ne.
  - right. split; [|done]. unfold removeArrayEntries. by rewrite stored_write_ne.
  - right. split; [|done]. unfold sendTopSizes. simpl.
    apply stored_sorted_in_place_perm, js_sort_perm.
  - right. split; [|done]. unfold sendTopReferences. simpl.
    apply stored_sorted_in_place_perm, js_sort_perm.
  - right. split; [|done]. rewrite stored_sendSecondHits. by case_decide.
Qed.

Lemma merged_perm (name : string) (calls : list call) (content content' : list record) :
  content' ≡ₚ content -> merged name calls content -> merged name calls content'.
Proof.
  intros Hperm [Hnodup Hall]. split.
  - by rewrite Hperm.
  - intros r Hr. apply Hall. by rewrite <- Hperm.
Qed.

Lemma merged_step (s : StateManagement) (name : string) (calls : list call) (c : call) :
  merging name c ->
  merged name calls (stored s name) ->
  merged name (calls ++ [c]) (stored (step s c) name).
Proof.
  intros Hc [Hnodup Hall].
  assert (forall v, times_inserted name v calls <= times_inserted name v (calls ++ [c]))
    as Hmono.
  { intros v. rewrite times_inserted_snoc. destruct (inserts name v c); lia. }
  destruct (stored_step_merging s name c Hc)
    as [(comparefn & now & e & amount & Hadd & -> & _ & Hins)|[Hperm Hrej]]; cycle 1.
  { apply (merged_perm _ _ (stored s name)); [done|].
    split; [done|]. intros r Hr. destruct (Hall r Hr) as [? ?].
    specialize (Hmono (entry r)). split; [done|lia]. }
  assert (times_inserted name e (calls ++ [c]) = times_inserted name e calls + 1)
    as Hone.
  { rewrite times_inserted_snoc, Hins. by rewrite bool_decide_eq_true_2. }
  pose proof (times_inserted_nonneg name e calls) as Hpos.
  unfold inserted_content. split.
  - apply reduce_NoDup. rewrite increment_or_push_entries.
    case_decide as Hin; [done|].
    apply NoDup_app. split_and!; [done| |apply NoDup_singleton].
    intros x Hx Hx'. apply list_elem_of_singleton in Hx'. by subst.
  - intros r Hr%reduce_elem_of.
    destruct (increment_or_push_cases now (stored s name) e)
      as [[Hout Heq]|(l1 & r0 & l2 & Hcontent & Hr0 & Heq)];
      rewrite Heq in Hr.
    + apply elem_of_app in Hr as [Hr|Hr].
      * destruct (Hall r Hr) as [? ?]. specialize (Hmono (entry r)).
        split; [done|lia].
      * apply list_elem_of_singleton in Hr as ->. simpl. split; [done|lia].
    + assert (r0 ∈ stored s name) as Hr0in
        by (rewrite Hcontent, elem_of_app; right; left).
      destruct (Hall r0 Hr0in) as [Hadd0 Hcount0].
      rewrite elem_of_app, elem_of_cons in Hr.
      assert (r ∈ stored s name \/ r = _incrementEntry now r0) as [Hold| ->].
      { rewrite Hcontent, elem_of_app, elem_of_cons. tauto. }
      * destruct (Hall r Hold) as [? ?]. specialize (Hmono (entry r)).
        split; [done|lia].
      * simpl. rewrite Hr0 in *. split; [done|lia].
Qed.

Lemma counted_step (s : StateManagement) (name : string) (calls : list call) (c : call) :
  merging name c ->
  (forall comparefn now e amount,
     c = AddArrayEntry now name e amount true \/
     c = AddArrayCountEntry now name e amount true ->
     _canAdd e = Normal true ->
     inserted_content comparefn now (stored s name) e amount true =
     increment_or_push now (stored s name) e true) ->
  merged name calls (stored s name) ->
  counted name calls (stored s name) ->
  counted name (calls ++ [c]) (stored (step s c) name).
Proof.
  intros Hc Hroom [Hnodup Hall] [Hcount Hnone].
  destruct (stored_step_merging s name c Hc)
    as [(comparefn & now & e & amount & Hadd & -> & Hshape & Hins)|[Hperm Hrej]]; cycle 1.
  { assert (forall v, _canAdd v = Normal true ->
              times_inserted name v (calls ++ [c]) = times_inserted name v calls)
      as Hsame.
    { intros v Hv. rewrite times_inserted_snoc.
      destruct (inserts name v c) eqn:Hi; [|lia]. by destruct (Hrej v Hi). }
    split.
    - intros r Hr. rewrite Hperm in Hr. destruct (Hall r Hr) as [Hv _].
      rewrite Hsame by done. by apply Hcount.
    - intros v Hv Hout. rewrite Hsame by done. apply Hnone; [done|].
      by rewrite <- Hperm. }
  rewrite Hroom by done.
  assert (forall v, times_inserted name v (calls ++ [c]) =
                    times_inserted name v calls + (if decide (e = v) then 1 else 0))
    as Hsnoc.
  { intros v. rewrite times_inserted_snoc, Hins.
    case_decide; [by rewrite bool_decide_eq_true_2|by rewrite bool_decide_eq_false_2]. }
  destruct (increment_or_push_cases now (stored s name) e)
    as [[Hout Heq]|(l1 & r0 & l2 & Hcontent & Hr0 & Heq)]; rewrite Heq.
  - split.
    + intros r [Hr| ->%list_elem_of_singleton]%elem_of_app.
      * rewrite Hsnoc. rewrite decide_False; [rewrite Hcount by done; lia|].
        intros ->. apply Hout. by apply list_elem_of_fmap_2.
      * simpl. rewrite Hsnoc, decide_True by done. rewrite Hnone by done. lia.
    + intros v Hv Hnotin. rewrite fmap_app, not_elem_of_app in Hnotin.
      destruct Hnotin as [Hnotin He]. simpl in He.
      rewrite list_elem_of_singleton in He.
      rewrite Hsnoc, decide_False by congruence. rewrite Hnone by done. lia.
  - rewrite Hcontent in Hnodup, Hcount, Hnone.
    rewrite fmap_app, fmap_cons in Hnodup.
    apply NoDup_app in Hnodup as (_ & Hdisj & [Hr0l2 _]%NoDup_cons).
    assert (forall r, r ∈ l1 \/ r ∈ l2 -> entry r <> e) as Hother.
    { intros r [Hr|Hr] Heq'.
      - apply (Hdisj (entry r)); [by apply list_elem_of_fmap_2|].
        rewrite Heq', Hr0. left.
      - apply Hr0l2. rewrite Hr0, <- Heq'. by apply list_elem_of_fmap_2. }
    split.
    + intros r Hr. rewrite elem_of_app, elem_of_cons in Hr.
      destruct Hr as [Hr|[->|Hr]].
      * rewrite Hsnoc, decide_False by (by intros Heq'; apply (Hother r); auto).
        rewrite Hcount; [lia|]. rewrite elem_of_app. by left.
      * simpl. rewrite Hr0, Hsnoc, decide_True by done.
        rewrite (Hcount r0), Hr0; [lia|].
        rewrite elem_of_app, elem_of_cons. auto.
      * rewrite Hsnoc, decide_False by (by intros Heq'; apply (Hother r); auto).
        rewrite Hcount; [lia|]. rewrite elem_of_app, elem_of_cons. auto.
    + intros v Hv Hnotin.
      assert (v ∉ entry <$> (l1 ++ r0 :: l2)) as Hnotin'.
      { by rewrite !fmap_app, !fmap_cons in *. }
      rewrite Hsnoc, decide_False; [rewrite Hnone by done; lia|].
      intros ->. apply Hnotin'. rewrite fmap_app, fmap_cons, Hr0.
      rewrite elem_of_app, elem_of_cons. auto.
Qed.

Lemma accepted_spec (e : value) : accepted e = true <-> _canAdd e = Normal true.
Proof. unfold accepted. destruct (_canAdd e) as [[]|]; split; congruence. Qed.

Lemma inserted_values_app (name : string) (calls calls' : list call) :
  inserted_values name (calls ++ calls') =
  inserted_values name calls ++ inserted_values name calls'.
Proof. apply omap_app. Qed.

Lemma times_inserted_cons (name : string) (v : value) (c : call) (calls : list call) :
  times_inserted name v (c :: calls) =
  (if inserts name v c then 1 else 0) + times_inserted name v calls.
Proof.
  unfold times_inserted. rewrite filter_cons.
  destruct (inserts name v c); case_decide; try done; simpl length; lia.
Qed.

Lemma inserted_values_elem_of (name : string) (v : value) (calls : list call) :
  _canAdd v = Normal true ->
  0 < times_inserted name v calls ->
  v ∈ inserted_values name calls.
Proof.
  intros Hv. induction calls as [|c calls IH]; [unfold times_inserted; simpl; lia|].
  rewrite times_inserted_cons. intros Hpos.
  change (c :: calls) with ([c] ++ calls). rewrite inserted_values_app.
  apply elem_of_app.
  destruct (inserts name v c) eqn:Hc; [left|right; apply IH; lia].
  apply accepted_spec in Hv.
  destruct c; simpl in Hc; try done;
    apply andb_prop in Hc as [Hn ->%bool_decide_eq_true];
    simpl; rewrite Hn, Hv; simpl; left.
Qed.

(** Where the capacity leaves room for every inserted value, an accepted
    insert evicts nothing. *)
Lemma roomy_keeps_all (s : StateManagement) (name : string)
    (before after : list call) (c : call) (comparefn : record -> record -> Z)
    (now : Z) (e : value) (amount : option nat) :
  merged name before (stored s name) ->
  roomy name (before ++ c :: after) c ->
  c = AddArrayEntry now name e amount true \/
  c = AddArrayCountEntry now name e amount true ->
  _canAdd e = Normal true ->
  inserted_content comparefn now (stored s name) e amount true =
  increment_or_push now (stored s name) e true.
Proof.
  intros [Hnodup Hall] Hroomy Hshape Hadd.
  unfold inserted_content. destruct amount as [k|]; [|done].
  apply reduce_under.
  assert ((length (remove_dups (inserted_values name (before ++ c :: after))) <= k)%nat)
    as Hk.
  { destruct Hshape as [-> | ->]; by apply Hroomy. }
  etrans; [|exact Hk].
  rewrite <- (length_fmap entry).
  apply submseteq_length, NoDup_submseteq.
  - rewrite increment_or_push_entries. case_decide as Hin; [done|].
    apply NoDup_app. split_and!; [done| |apply NoDup_singleton].
    intros x Hx Hx'. apply list_elem_of_singleton in Hx'. by subst.
  - intros v Hv. apply elem_of_remove_dups.
    rewrite inserted_values_app. apply elem_of_app.
    rewrite increment_or_push_entries in Hv.
    assert (v ∈ entry <$> stored s name \/ v = e) as [Hold| ->].
    { case_decide; [by left|].
      apply elem_of_app in Hv as [?|?%list_elem_of_singleton]; auto. }
    + left. apply list_elem_of_fmap in Hold as (r & -> & Hr).
      destruct (Hall r Hr) as [? ?].
      apply inserted_values_elem_of; [done|lia].
    + right. change (c :: after) with ([c] ++ after).
      rewrite inserted_values_app. apply elem_of_app. left.
      apply accepted_spec in Hadd.
      destruct Hshape as [-> | ->]; simpl;
        rewrite bool_decide_eq_true_2, Hadd by done; simpl; left.
Qed.

Lemma merged_run (s : StateManagement) (name : string) (calls : list call) :
  stored s name = [] ->
  Forall (merging name) calls ->
  merged name calls (stored (run s calls) name).
Proof.
  intros Hempty. induction calls as [|c calls IH] using rev_ind; intros Hcalls.
  { simpl. rewrite Hempty. split; [constructor|]. by intros r Hr%elem_of_nil. }
  apply Forall_app in Hcalls as [Hcalls Hc]. rewrite Forall_singleton in Hc.
  rewrite run_app. simpl. by apply merged_step, IH.
Qed.

Lemma counted_run (s : StateManagement) (name : string) (before after : list call) :
  stored s name = [] ->
  Forall (merging name) (before ++ after) ->
  Forall (roomy name (before ++ after)) (before ++ after) ->
  counted name before (stored (run s before) name).
Proof.
  intros Hempty. revert after.
  induction before as [|c before IH] using rev_ind; intros after Hmerging Hroomy.
  { simpl. rewrite Hempty. split; [by intros r Hr%elem_of_nil|done]. }
  rewrite <- app_assoc in Hmerging, Hroomy. simpl in Hmerging, Hroomy.
  pose proof (IH (c :: after) Hmerging Hroomy) as Hcounted.
  pose proof Hmerging as [Hbefore [Hc _]%Forall_cons]%Forall_app.
  pose proof Hroomy as [_ [Hrc _]%Forall_cons]%Forall_app.
  pose proof (merged_run s name before Hempty Hbefore) as Hmerged.
  rewrite run_app. simpl. apply counted_step; [done| |done|done].
  intros comparefn now e amount Hshape Hadd.
  by eapply roomy_keeps_all.
Qed.

(** C2, as the code has it: in a collection that starts empty and whose
    inserts all merge ([increment = true]), after each call no two stored
    records have equal entries, and the count of a stored record is at
    least 1 and at most the number of times its entry was inserted.  The
    count is that number, and every accepted value inserted is stored, when
    nothing is evicted: each insert passes no capacity, or a capacity that is
    at least the number of distinct values inserted. *)
Theorem merged_counts (s : StateManagement) (name : string) (calls : list call)
    (n : nat) :
  stored s name = [] ->
  Forall (merging name) calls ->
  let made := take n calls in
  let content := stored (run s made) name in
  NoDup (entry <$> content) /\
  (forall r, r ∈ content -> 1 <= count r <= times_inserted name (entry r) made) /\
  (Forall (roomy name calls) calls ->
     (forall r, r ∈ content -> count r = times_inserted name (entry r) made) /\
     (forall v, _canAdd v = Normal true ->
        v ∈ entry <$> content <-> 0 < times_inserted name v made)).
Proof.
  intros Hempty Hmerging made content.
  assert (Forall (merging name) made) as Hmade by (by apply Forall_take).
  destruct (merged_run s name made Hempty Hmade) as [Hnodup Hall].
  split; [done|]. split; [intros r Hr; by apply Hall|].
  intros Hroomy.
  destruct (counted_run s name made (drop n calls) Hempty) as [Hcount Hnone].
  { unfold made. by rewrite take_drop. }
  { unfold made. by rewrite take_drop. }
  split; [done|].
  intros v Hv. split.
  - intros (r & -> & Hr)%list_elem_of_fmap. destruct (Hall r Hr) as [_ ?]. lia.
  - intros Hpos. destruct (decide (v ∈ entry <$> content)) as [|Hout]; [done|].
    specialize (Hnone v Hv Hout). fold made in Hnone. lia.
Qed.

Lemma merged_counts_witness :
  let calls := [AddArrayEntry 1000 "paths" (VStr "/img/1/1") (Some 10%nat) true;
                AddArrayEntry 2000 "paths" (VStr "/img/2/2") (Some 10%nat) true;
                AddArrayEntry 3000 "paths" (VStr "/img/1/1") (Some 10%nat) true] in
  NoDup (entry <$> stored (run fresh (take 3 calls)) "paths") /\
  forall r, r ∈ stored (run fresh (take 3 calls)) "paths" ->
    count r = times_inserted "paths" (entry r) (take 3 calls).
Proof.
  intros calls.
  destruct (merged_counts fresh "paths" calls 3) as (Hnodup & _ & Hcount).
  - reflexivity.
  - repeat constructor.
  - split; [exact Hnodup|].
    apply Hcount. repeat constructor; simpl; intros _ k [= <-]; vm_compute; lia.
Defined.

(** C2, as it is stated, fails: with capacity 1, "/img/1/1" is inserted,
    evicted by the insert of "/img/2/2", and inserted again; its record then
    has count 1 although the value was inserted twice. *)
Lemma count_restarts_after_eviction :
  ~ (forall (name : string) (calls : list call),
       Forall (merging name) calls ->
       NoDup (entry <$> stored (run fresh calls) name) /\
       forall r, r ∈ stored (run fresh calls) name ->
         count r = times_inserted name (entry r) calls).
Proof.
  intros H.
  destruct (H "paths"%string
              [AddArrayEntry 1000 "paths" (VStr "/img/1/1") (Some 1%nat) true;
               AddArrayEntry 2000 "paths" (VStr "/img/2/2") (Some 1%nat) true;
               AddArrayEntry 3000 "paths" (VStr "/img/1/1") (Some 1%nat) true]
              ltac:(repeat constructor)) as [_ Hcount].
  specialize (Hcount (Record_ (VStr "/img/1/1") 3000 1)).
  vm_compute in Hcount. specialize (Hcount ltac:(left)). discriminate Hcount.
Qed.

(** * Further properties of the store *)

(** ** What an insert touches *)

Lemma settle_addArrayEntry (s : StateManagement) (now : Z) (name : string)
    (e : value) (amount : option nat) (increment : bool) :
  settle s (addArrayEntry s now name e amount increment) =
  if accepted e
  then writeArrayEntries s name
         (inserted_content newest_first now (stored s name) e amount increment)
  else s.
Proof.
  unfold accepted, addArrayEntry. by destruct (_canAdd e) as [[]|].
Qed.

Lemma settle_addArrayCountEntry (s : StateManagement) (now : Z) (name : string)
    (e : value) (amount : option nat) (increment : bool) :
  settle s (addArrayCountEntry s now name e amount increment) =
  if accepted e
  then writeArrayEntries s name
         (inserted_content most_counted_first now (stored s name) e amount increment)
  else s.
Proof.
  unfold accepted, addArrayCountEntry. by destruct (_canAdd e) as [[]|].
Qed.

(** An insert in one collection, whether it is accepted, ignored or throws,
    leaves every other collection as it was, in memory and on disk, and
    never switches persistence on or off. *)
Theorem insert_touches_one_name (s : StateManagement) (now : Z) (name other : string)
    (e : value) (amount : option nat) (increment : bool) :
  other <> name ->
  let s1 := settle s (addArrayEntry s now name e amount increment) in
  let s2 := settle s (addArrayCountEntry s now name e amount increment) in
  (localPersistance s1 !! other = localPersistance s !! other /\
   disk s1 !! other = disk s !! other /\
   filePersistance s1 = filePersistance s) /\
  (localPersistance s2 !! other = localPersistance s !! other /\
   disk s2 !! other = disk s !! other /\
   filePersistance s2 = filePersistance s).
Proof.
  intros Hne s1 s2. subst s1 s2.
  rewrite settle_addArrayEntry, settle_addArrayCountEntry.
  destruct (accepted e); [|done].
  unfold writeArrayEntries; simpl.
  destruct (filePersistance s); by rewrite ?lookup_insert_ne.
Qed.

Lemma insert_touches_one_name_witness :
  let s := writeArrayEntries fresh "hits" [Record_ (VStr "/img/1/1") 1000 1] in
  localPersistance
    (settle s (addArrayEntry s 2000 "paths" (VStr "/img/2/2") (Some 10%nat) true))
    !! "hits"%string
  = Some [Record_ (VStr "/img/1/1") 1000 1].
Proof.
  intros s.
  destruct (insert_touches_one_name s 2000 "paths" "hits" (VStr "/img/2/2")
              (Some 10%nat) true) as [(Hlocal & _) _]; [done|].
  rewrite Hlocal. reflexivity.
Defined.

(** An insert removes at most one record, whatever the capacity: a
    collection that holds more than [k + 1] records, as one read from a file
    written under a larger capacity may, is still over [k] after it. *)
Theorem insert_evicts_at_most_one (s : StateManagement) (now : Z) (name : string)
    (e : value) (amount : option nat) (increment : bool) :
  let s1 := settle s (addArrayEntry s now name e amount increment) in
  let s2 := settle s (addArrayCountEntry s now name e amount increment) in
  (length (stored s name) <= S (length (stored s1 name)))%nat /\
  (length (stored s name) <= S (length (stored s2 name)))%nat.
Proof.
  intros s1 s2. subst s1 s2.
  rewrite settle_addArrayEntry, settle_addArrayCountEntry.
  assert (forall comparefn,
            (length (stored s name) <=
             S (length (inserted_content comparefn now (stored s name) e amount
                          increment)))%nat) as Hone.
  { intros comparefn. unfold inserted_content.
    assert (length (stored s name) <=
            length (increment_or_push now (stored s name) e increment))%nat as Hgrow.
    { unfold increment_or_push.
      pose proof (_incrementIfExists_length now (stored s name) e) as H.
      destruct (_incrementIfExists now (stored s name) e) as [found content'].
      simpl in H. destruct increment, found; simpl; rewrite ?length_app; simpl; lia. }
    destruct (reduce_cases comparefn amount
                (increment_or_push now (stored s name) e increment))
      as [->|[evicted Hperm]]; [lia|].
    rewrite Hperm in Hgrow. simpl in Hgrow. lia. }
  destruct (accepted e); rewrite ?stored_write_eq; auto with lia.
Qed.

(** ** The two outcomes of an accepted insert that evicts nothing *)

Lemma _incrementIfExists_first (now : Z) (l1 l2 : list record) (r : record) :
  entry r ∉ entry <$> l1 ->
  _incrementIfExists now (l1 ++ r :: l2) (entry r) =
  (true, l1 ++ _incrementEntry now r :: l2).
Proof.
  induction l1 as [|x l1 IH]; simpl.
  - intros _. by rewrite bool_decide_eq_true_2.
  - rewrite not_elem_of_cons. intros [Hx Hl1].
    rewrite bool_decide_eq_false_2 by congruence. by rewrite IH.
Qed.

(** A value that is not merged, because the insert does not merge or
    because no record has the value, becomes a new record with count 1 at
    the end of the collection; the records before it are untouched. *)
Theorem new_entry_is_appended (s : StateManagement) (now : Z) (name : string)
    (e : value) (amount : option nat) (increment : bool) :
  _canAdd e = Normal true ->
  increment = false \/ e ∉ entry <$> stored s name ->
  (forall k, amount = Some k -> (length (stored s name) < k)%nat) ->
  exists s1 s2,
    addArrayEntry s now name e amount increment = Normal s1 /\
    addArrayCountEntry s now name e amount increment = Normal s2 /\
    stored s1 name = stored s name ++ [fresh_record e now] /\
    stored s2 name = stored s name ++ [fresh_record e now].
Proof.
  intros Hadd Hnew Hroom.
  rewrite addArrayEntry_accepted, addArrayCountEntry_accepted by done.
  eexists _, _. split; [done|]. split; [done|].
  rewrite !stored_write_eq. unfold inserted_content.
  assert (increment_or_push now (stored s name) e increment
          = stored s name ++ [fresh_record e now]) as ->.
  { destruct Hnew as [->|Hnew]; [done|]. by apply increment_or_push_absent. }
  assert (forall comparefn,
            reduce comparefn amount (stored s name ++ [fresh_record e now])
            = stored s name ++ [fresh_record e now]) as Hkeep.
  { intros comparefn. destruct amount as [k|]; [|done].
    apply reduce_under. rewrite length_app. simpl.
    specialize (Hroom k eq_refl). lia. }
  by rewrite !Hkeep.
Qed.

Lemma new_entry_is_appended_witness :
  let s := writeArrayEntries fresh "hits" [Record_ (VStr "/img/1/1") 1000 1] in
  exists s1,
    addArrayEntry s 2000 "hits" (VStr "/img/1/1") None false = Normal s1 /\
    stored s1 "hits" =
      [Record_ (VStr "/img/1/1") 1000 1; Record_ (VStr "/img/1/1") 2000 1].
Proof.
  intros s.
  destruct (new_entry_is_appended s 2000 "hits" (VStr "/img/1/1") None false)
    as (s1 & _ & Hs1 & _ & Hstored & _); [reflexivity|by left|discriminate|].
  by exists s1.
Defined.

(** A value that a record of the collection already has is merged into the
    first such record: its count grows by one, its time becomes the time of
    the insert, and it keeps its place; no other record changes.  The count
    is one that a double can add 1 to, from -2^53 to 2^53 - 1. *)
Theorem repeated_entry_is_merged (s : StateManagement) (now : Z) (name : string)
    (amount : option nat) (l1 l2 : list record) (r : record) :
  _canAdd (entry r) = Normal true ->
  stored s name = l1 ++ r :: l2 ->
  entry r ∉ entry <$> l1 ->
  - 2 ^ 53 <= count r < 2 ^ 53 ->
  (forall k, amount = Some k -> (length (stored s name) <= k)%nat) ->
  exists s1 s2,
    addArrayEntry s now name (entry r) amount true = Normal s1 /\
    addArrayCountEntry s now name (entry r) amount true = Normal s2 /\
    stored s1 name = l1 ++ {| entry := entry r; time := now; count := count r + 1 |} :: l2 /\
    stored s2 name = l1 ++ {| entry := entry r; time := now; count := count r + 1 |} :: l2.
Proof.
  intros Hadd Hstored Hfirst _ Hroom.
  rewrite addArrayEntry_accepted, addArrayCountEntry_accepted by done.
  eexists _, _. split; [done|]. split; [done|].
  rewrite !stored_write_eq. unfold inserted_content.
  assert (increment_or_push now (stored s name) (entry r) true
          = l1 ++ _incrementEntry now r :: l2) as Hmerged.
  { unfold increment_or_push. rewrite Hstored.
    by rewrite _incrementIfExists_first. }
  rewrite Hmerged.
  assert (forall comparefn,
            reduce comparefn amount (l1 ++ _incrementEntry now r :: l2)
            = l1 ++ _incrementEntry now r :: l2) as Hkeep.
  { intros comparefn. destruct amount as [k|]; [|done].
    apply reduce_under. specialize (Hroom k eq_refl).
    rewrite Hstored in Hroom. rewrite !length_app in *. simpl in *. lia. }
  by rewrite !Hkeep.
Qed.

Lemma repeated_entry_is_merged_witness :
  let s := writeArrayEntries fresh "paths"
             [Record_ (VStr "/img/1/1") 1000 1; Record_ (VStr "/img/2/2") 2000 4;
              Record_ (VStr "/img/3/3") 3000 1] in
  exists s1,
    addArrayEntry s 5000 "paths" (VStr "/img/2/2") (Some 10%nat) true = Normal s1 /\
    stored s1 "paths" =
      [Record_ (VStr "/img/1/1") 1000 1; Record_ (VStr "/img/2/2") 5000 5;
       Record_ (VStr "/img/3/3") 3000 1].
Proof.
  intros s.
  destruct (repeated_entry_is_merged s 5000 "paths" (Some 10%nat)
              [Record_ (VStr "/img/1/1") 1000 1] [Record_ (VStr "/img/3/3") 3000 1]
              (Record_ (VStr "/img/2/2") 2000 4))
    as (s1 & _ & Hs1 & _ & Hstored & _).
  - reflexivity.
  - reflexivity.
  - apply (bool_decide_unpack _). vm_compute. exact I.
  - simpl. lia.
  - intros k [= <-]. vm_compute. lia.
  - by exists s1.
Defined.

(** ** Who leaves when the collection is full *)

(** The content of an accepted insert: the record of the inserted value,
    with the time of the insert, and records that were stored. *)
Lemma increment_or_push_split (now : Z) (content : list record) (e : value)
    (increment : bool) :
  exists r others,
    increment_or_push now content e increment ≡ₚ r :: others /\
    entry r = e /\ time r = now /\
    (length others <= length content)%nat /\
    (length (increment_or_push now content e increment) <= S (length others))%nat /\
    forall x, x ∈ others -> x ∈ content.
Proof.
  assert (exists r others,
            content ++ [fresh_record e now] ≡ₚ r :: others /\
            entry r = e /\ time r = now /\
            (length others <= length content)%nat /\
            (length (content ++ [fresh_record e now]) <= S (length others))%nat /\
            forall x, x ∈ others -> x ∈ content) as Hpush.
  { exists (fresh_record e now), content. split_and!; try done.
    - symmetry. apply Permutation_cons_append.
    - rewrite length_app. simpl. lia. }
  destruct increment; [|done].
  destruct (increment_or_push_cases now content e)
    as [[_ ->]|(l1 & r0 & l2 & -> & Hr0 & ->)]; [done|].
  exists (_incrementEntry now r0), (l1 ++ l2). split_and!; try done.
  - by rewrite Permutation_middle.
  - rewrite !length_app. simpl. lia.
  - rewrite !length_app. simpl. lia.
  - intros x. rewrite !elem_of_app, elem_of_cons. tauto.
Qed.

(** In a collection of capacity at least 1 whose records are all older than
    the insert, the value just inserted by addArrayEntry is stored after the
    insert, with the time of the insert: recency eviction never removes the
    newcomer. *)
Theorem latest_entry_is_kept (s : StateManagement) (now : Z) (name : string)
    (e : value) (k : nat) (increment : bool) :
  _canAdd e = Normal true ->
  (1 <= k)%nat ->
  (forall r, r ∈ stored s name -> time r < now) ->
  exists s1 r,
    addArrayEntry s now name e (Some k) increment = Normal s1 /\
    r ∈ stored s1 name /\ entry r = e /\ time r = now.
Proof.
  intros Hadd Hk Holder.
  rewrite addArrayEntry_accepted by done.
  destruct (increment_or_push_split now (stored s name) e increment)
    as (r & others & Hperm & Hentry & Htime & _ & Hlen & Hothers).
  eexists _, r. split; [done|]. split; [|done].
  rewrite stored_write_eq. unfold inserted_content.
  set (content := increment_or_push now (stored s name) e increment) in *.
  destruct (decide (k < length content)%nat) as [Hover|Hunder]; cycle 1.
  { rewrite reduce_under by lia. rewrite Hperm. left. }
  destruct (reduce_evicts newest_first k content newest_first_consistent Hover)
    as (evicted & _ & Hsplit & Hmin).
  assert (r ∈ content) as Hr by (rewrite Hperm; left).
  rewrite Hsplit in Hr. apply elem_of_cons in Hr as [->|Hr]; [|done].
  exfalso.
  destruct others as [|x others]; [simpl in Hlen; lia|].
  assert (x ∈ content) as Hx by (rewrite Hperm; right; left).
  specialize (Hmin x Hx). unfold newest_first in Hmin.
  specialize (Holder x (Hothers x ltac:(left))). lia.
Qed.

Lemma latest_entry_is_kept_witness :
  let s := writeArrayEntries fresh "paths"
             [Record_ (VStr "/img/1/1") 1000 7; Record_ (VStr "/img/2/2") 2000 1] in
  exists s1 r,
    addArrayEntry s 3000 "paths" (VStr "/img/3/3") (Some 2%nat) true = Normal s1 /\
    r ∈ stored s1 "paths" /\ entry r = VStr "/img/3/3" /\ time r = 3000.
Proof.
  intros s.
  apply (latest_entry_is_kept s 3000 "paths" (VStr "/img/3/3") 2 true).
  - reflexivity.
  - lia.
  - intros r Hr. vm_compute in Hr.
    apply elem_of_cons in Hr as [->|Hr]; [simpl; lia|].
    apply elem_of_cons in Hr as [->|Hr]; [simpl; lia|].
    by apply elem_of_nil in Hr.
Defined.

(** *** The last element of a sorted array

    When the comparison never puts the last element of the array before
    another one, the sort leaves it last: it extends a non-descending run,
    stops a descending one, and the binary search sends it to the end. *)
Section SortLast.
Context {A : Type}.
Variable comparefn : A -> A -> Z.
Variable x : A.

Lemma run_extent_le (descending : bool) (prev : A) (l : list A) :
  (run_extent comparefn descending prev l <= length l)%nat.
Proof.
  revert prev. induction l as [|y l IH]; intros prev; simpl; [lia|].
  destruct (if descending then _ else _); [|lia]. specialize (IH y). lia.
Qed.

Lemma run_extent_descending_snoc (prev : A) (l : list A) :
  (forall y, y ∈ prev :: l -> 0 <= comparefn x y) ->
  run_extent comparefn true prev (l ++ [x]) = run_extent comparefn true prev l.
Proof.
  revert prev. induction l as [|y l IH]; intros prev Hx; simpl.
  - destruct (Z.ltb_spec (comparefn x prev) 0); [|done].
    specialize (Hx prev ltac:(left)). lia.
  - destruct (comparefn y prev <? 0); [|done].
    rewrite IH; [done|]. intros z Hz. apply Hx. by right.
Qed.

Lemma run_extent_ascending_snoc (prev : A) (l : list A) :
  (forall y, y ∈ prev :: l -> 0 <= comparefn x y) ->
  run_extent comparefn false prev (l ++ [x]) =
  if decide (run_extent comparefn false prev l = length l) then S (length l)
  else run_extent comparefn false prev l.
Proof.
  revert prev. induction l as [|y l IH]; intros prev Hx; simpl.
  - destruct (Z.leb_spec 0 (comparefn x prev)); [done|].
    specialize (Hx prev ltac:(left)). lia.
  - destruct (0 <=? comparefn y prev).
    + rewrite IH by (intros z Hz; apply Hx; by right).
      repeat case_decide; (done || lia).
    + by rewrite decide_False.
Qed.

Lemma insertion_point_end (sorted : list A) (fuel left right : nat) :
  (forall y, y ∈ sorted -> 0 <= comparefn x y) ->
  (left <= right <= length sorted)%nat ->
  (right - left <= fuel)%nat ->
  insertion_point comparefn fuel x sorted left right = right.
Proof.
  intros Hx. revert left right.
  induction fuel as [|fuel IH]; intros left right Hlr Hfuel; cbn [insertion_point].
  { lia. }
  destruct (Nat.ltb_spec left right) as [Hlt|]; [|lia].
  pose proof (Nat.div_mod_eq (right - left) 2) as Hdiv.
  pose proof (Nat.mod_upper_bound (right - left) 2 ltac:(lia)) as Hmod.
  set (mid := (left + (right - left) / 2)%nat) in *.
  assert (left <= mid < right)%nat as Hmid by (unfold mid; lia).
  destruct (lookup_lt_is_Some_2 sorted mid ltac:(lia)) as [m Hm].
  rewrite Hm.
  destruct (Z.ltb_spec (comparefn x m) 0) as [Hneg|_].
  - specialize (Hx m ltac:(by eapply list_elem_of_lookup_2)). lia.
  - apply IH; lia.
Qed.

Lemma binary_insert_end (sorted : list A) :
  (forall y, y ∈ sorted -> 0 <= comparefn x y) ->
  binary_insert comparefn sorted x = sorted ++ [x].
Proof.
  intros Hx. unfold binary_insert.
  rewrite insertion_point_end by (done || lia).
  by rewrite firstn_all, drop_all.
Qed.

Lemma BinaryInsertionSort_snoc (run rest : list A) :
  (forall y, y ∈ run ++ rest -> 0 <= comparefn x y) ->
  BinaryInsertionSort comparefn run (rest ++ [x]) =
  BinaryInsertionSort comparefn run rest ++ [x].
Proof.
  intros Hx. unfold BinaryInsertionSort. rewrite fold_left_app. simpl.
  apply binary_insert_end. intros y Hy. apply Hx.
  by rewrite <- (BinaryInsertionSort_perm comparefn rest run).
Qed.

Lemma js_sort_snoc (l : list A) :
  (forall y, y ∈ l -> 0 <= comparefn x y) ->
  js_sort comparefn (l ++ [x]) = js_sort comparefn l ++ [x].
Proof.
  intros Hx. destruct l as [|a [|b l]].
  - done.
  - unfold js_sort. simpl.
    destruct (Z.ltb_spec (comparefn x a) 0); [|done].
    specialize (Hx a ltac:(left)). lia.
  - unfold js_sort, CountAndMakeRun. cbn [app].
    assert (forall y, y ∈ b :: l -> 0 <= comparefn x y) as Hx'
      by (intros y Hy; apply Hx; by right).
    assert (forall n run,
              (n <= length l)%nat ->
              run ≡ₚ take (2 + n) (a :: b :: l) ->
              BinaryInsertionSort comparefn run (drop (2 + n) (a :: b :: l ++ [x]))
              = BinaryInsertionSort comparefn run (drop (2 + n) (a :: b :: l)) ++ [x])
      as Hrest.
    { intros n run Hn Hrun. simpl. rewrite drop_app_le by done.
      apply BinaryInsertionSort_snoc. intros y Hy. apply Hx.
      rewrite Hrun in Hy. simpl in Hy.
      rewrite <- (take_drop n l). set_unfold. tauto. }
    pose proof (run_extent_le (comparefn b a <? 0) b l) as Hle.
    destruct (comparefn b a <? 0).
    + rewrite run_extent_descending_snoc by done.
      replace (take (2 + run_extent comparefn true b l) (a :: b :: l ++ [x]))
        with (take (2 + run_extent comparefn true b l) (a :: b :: l))
        by (simpl; by rewrite take_app_le).
      apply Hrest; [done|]. apply reverse_Permutation.
    + rewrite run_extent_ascending_snoc by done.
      case_decide as Hall.
      * rewrite Hall. simpl.
        rewrite !firstn_all, !drop_all.
        rewrite (take_ge (l ++ [x])) by (rewrite length_app; simpl; lia).
        rewrite (drop_ge (l ++ [x])) by (rewrite length_app; simpl; lia).
        done.
      * replace (take (2 + run_extent comparefn false b l) (a :: b :: l ++ [x]))
          with (take (2 + run_extent comparefn false b l) (a :: b :: l))
          by (simpl; by rewrite take_app_le).
        by apply Hrest.
Qed.
End SortLast.

Lemma reduce_newcomer (comparefn : record -> record -> Z) (k : nat)
    (content : list record) (r : record) :
  (k <= length content)%nat ->
  (forall y, y ∈ content -> 0 <= comparefn r y) ->
  reduce comparefn (Some k) (content ++ [r]) = js_sort comparefn content.
Proof.
  intros Hfull Hr. unfold reduce.
  rewrite length_app. simpl.
  destruct (Nat.ltb_spec k (length content + 1)); [|lia].
  rewrite js_sort_snoc by done. unfold pop. apply removelast_last.
Qed.

(** A full top list is closed to newcomers: when every stored record has a
    count of 2 or more, or the count 1 and a time that is not before the
    insert, a value that is not stored yet is evicted by the very
    addArrayCountEntry that inserts it.  The stored records stay, in the
    order of the sort. *)
Theorem newcomer_leaves_full_top_list (s : StateManagement) (now : Z) (name : string)
    (e : value) (k : nat) (increment : bool) :
  _canAdd e = Normal true ->
  e ∉ entry <$> stored s name ->
  (k <= length (stored s name))%nat ->
  (forall r, r ∈ stored s name -> 2 <= count r \/ (count r = 1 /\ now <= time r)) ->
  exists s1,
    addArrayCountEntry s now name e (Some k) increment = Normal s1 /\
    stored s1 name = js_sort most_counted_first (stored s name) /\
    stored s1 name ≡ₚ stored s name /\
    e ∉ entry <$> stored s1 name.
Proof.
  intros Hadd Hnew Hfull Hstrong.
  rewrite addArrayCountEntry_accepted by done.
  eexists. split; [done|]. rewrite stored_write_eq.
  assert (inserted_content most_counted_first now (stored s name) e (Some k) increment
          = js_sort most_counted_first (stored s name)) as ->.
  { unfold inserted_content. rewrite increment_or_push_absent by done.
    apply reduce_newcomer; [done|].
    intros y Hy. unfold most_counted_first, fresh_record. simpl.
    destruct (Hstrong y Hy); case_bool_decide; lia. }
  split; [done|]. split; [apply js_sort_perm|].
  by rewrite js_sort_perm.
Qed.

Lemma newcomer_leaves_full_top_list_witness :
  let s := writeArrayEntries fresh "sizes-all"
             [Record_ (VSize 1 1) 1000 2; Record_ (VSize 2 2) 2000 3] in
  exists s1,
    addArrayCountEntry s 3000 "sizes-all" (VSize 3 3) (Some 2%nat) true = Normal s1 /\
    stored s1 "sizes-all" ≡ₚ [Record_ (VSize 1 1) 1000 2; Record_ (VSize 2 2) 2000 3].
Proof.
  intros s.
  destruct (newcomer_leaves_full_top_list s 3000 "sizes-all" (VSize 3 3) 2 true)
    as (s1 & Hs1 & _ & Hperm & _).
  - reflexivity.
  - apply (bool_decide_unpack _). vm_compute. exact I.
  - vm_compute. lia.
  - intros r Hr. vm_compute in Hr.
    apply elem_of_cons in Hr as [->|Hr]; [left; simpl; lia|].
    apply elem_of_cons in Hr as [->|Hr]; [left; simpl; lia|].
    by apply elem_of_nil in Hr.
  - by exists s1.
Defined.

(** The same happens to addArrayEntry when the clock has not moved: in a
    full collection whose records all have the time of the insert or a later
    one (an insert in the same millisecond, a clock set back), the value just
    inserted is the one evicted. *)
Theorem same_instant_newcomer_is_evicted (s : StateManagement) (now : Z)
    (name : string) (e : value) (k : nat) (increment : bool) :
  _canAdd e = Normal true ->
  e ∉ entry <$> stored s name ->
  (k <= length (stored s name))%nat ->
  (forall r, r ∈ stored s name -> now <= time r) ->
  exists s1,
    addArrayEntry s now name e (Some k) increment = Normal s1 /\
    stored s1 name = js_sort newest_first (stored s name) /\
    stored s1 name ≡ₚ stored s name /\
    e ∉ entry <$> stored s1 name.
Proof.
  intros Hadd Hnew Hfull Hlate.
  rewrite addArrayEntry_accepted by done.
  eexists. split; [done|]. rewrite stored_write_eq.
  assert (inserted_content newest_first now (stored s name) e (Some k) increment
          = js_sort newest_first (stored s name)) as ->.
  { unfold inserted_content. rewrite increment_or_push_absent by done.
    apply reduce_newcomer; [done|].
    intros y Hy. unfold newest_first, fresh_record. simpl.
    specialize (Hlate y Hy). lia. }
  split; [done|]. split; [apply js_sort_perm|].
  by rewrite js_sort_perm.
Qed.

Lemma same_instant_newcomer_is_evicted_witness :
  let s := writeArrayEntries fresh "paths" [Record_ (VStr "/img/1/1") 1000 1] in
  exists s1,
    addArrayEntry s 1000 "paths" (VStr "/img/2/2") (Some 1%nat) true = Normal s1 /\
    stored s1 "paths" ≡ₚ [Record_ (VStr "/img/1/1") 1000 1].
Proof.
  intros s.
  destruct (same_instant_newcomer_is_evicted s 1000 "paths" (VStr "/img/2/2") 1 true)
    as (s1 & Hs1 & _ & Hperm & _).
  - reflexivity.
  - apply (bool_decide_unpack _). vm_compute. exact I.
  - vm_compute. lia.
  - intros r Hr. vm_compute in Hr.
    apply elem_of_cons in Hr as [->|Hr]; [simpl; lia|].
    by apply elem_of_nil in Hr.
  - by exists s1.
Defined.

(** ** Memory and disk *)

Lemma getArrayEntries_state (s : StateManagement) (name : string) (map order : bool) :
  (getArrayEntries s name map order).2 = (getArrayContent s name order).2.
Proof. unfold getArrayEntries. by destruct (getArrayContent s name order). Qed.

(** What a call leaves of the persistence flag and of the two maps. *)
Lemma step_flag (s : StateManagement) (c : call) :
  filePersistance (step s c) = filePersistance s.
Proof.
  destruct c as [now n e amount inc|now n e amount inc|n m o|n entries|n| | |zone adj cur];
    cbn [step].
  - rewrite settle_addArrayEntry. by destruct (accepted e).
  - rewrite settle_addArrayCountEntry. by destruct (accepted e).
  - rewrite getArrayEntries_state. destruct o; [|done]. apply sorted_in_place_flag.
  - done.
  - done.
  - apply sorted_in_place_flag.
  - apply sorted_in_place_flag.
  - unfold sendSecondHits. rewrite getArrayContent_ordered. simpl.
    apply sorted_in_place_flag.
Qed.

Lemma step_disk_in_memory (s : StateManagement) (c : call) :
  filePersistance s = false -> disk (step s c) = disk s.
Proof.
  intros Hmem.
  destruct c as [now n e amount inc|now n e amount inc|n m o|n entries|n| | |zone adj cur];
    cbn [step].
  - rewrite settle_addArrayEntry. destruct (accepted e); [|done].
    simpl. by rewrite Hmem.
  - rewrite settle_addArrayCountEntry. destruct (accepted e); [|done].
    simpl. by rewrite Hmem.
  - rewrite getArrayEntries_state. destruct o; [|done]. apply sorted_in_place_disk.
  - simpl. by rewrite Hmem.
  - simpl. by rewrite Hmem.
  - apply sorted_in_place_disk.
  - apply sorted_in_place_disk.
  - unfold sendSecondHits. rewrite getArrayContent_ordered. simpl.
    rewrite sorted_in_place_flag, Hmem. apply sorted_in_place_disk.
Qed.

(** Without persistence no call ever writes a file, and none switches
    persistence on: after any sequence of calls the folder is as it was. *)
Theorem memory_only_leaves_the_disk (s : StateManagement) (calls : list call) :
  filePersistance s = false ->
  disk (run s calls) = disk s /\ filePersistance (run s calls) = false.
Proof.
  revert s. induction calls as [|c calls IH]; intros s Hmem; simpl; [done|].
  destruct (IH (step s c)) as [Hdisk Hflag]; [by rewrite step_flag|].
  split; [|done]. rewrite Hdisk. by apply step_disk_in_memory.
Qed.

Lemma memory_only_leaves_the_disk_witness :
  disk (run (new_StateManagement {[ "paths"%string := [] ]} false)
          [AddArrayEntry 1000 "paths" (VStr "/img/1/1") (Some 10%nat) true;
           SendSecondHits Etc_UTC 2000 2000; RemoveArrayEntries "paths"])
  = {[ "paths"%string := [] ]}.
Proof.
  exact (proj1 (memory_only_leaves_the_disk
                  (new_StateManagement {[ "paths"%string := [] ]} false)
                  [AddArrayEntry 1000 "paths" (VStr "/img/1/1") (Some 10%nat) true;
                   SendSecondHits Etc_UTC 2000 2000; RemoveArrayEntries "paths"] eq_refl)).
Defined.

Lemma mirrored_write (s : StateManagement) (name : string) (entries : list record) :
  filePersistance s = true ->
  localPersistance s ⊆ disk s ->
  localPersistance (writeArrayEntries s name entries)
  ⊆ disk (writeArrayEntries s name entries).
Proof. intros Hflag Hsub. simpl. rewrite Hflag. by apply insert_mono. Qed.

Lemma mirrored_sorted_in_place (s : StateManagement) (name : string)
    (sorted : list record) :
  filePersistance s = true ->
  localPersistance s ⊆ disk s ->
  sorted_in_place s name sorted = s.
Proof.
  intros Hflag Hsub. unfold sorted_in_place.
  destruct (reads_file s name) eqn:Hfile; [done|].
  destruct (localPersistance s !! name) as [l|] eqn:Hl; [|done].
  exfalso. unfold reads_file in Hfile. rewrite Hflag in Hfile. simpl in Hfile.
  apply bool_decide_eq_false in Hfile. apply Hfile.
  exists l. by eapply lookup_weaken.
Qed.

Lemma mirrored_step (s : StateManagement) (c : call) :
  filePersistance s = true ->
  localPersistance s ⊆ disk s ->
  localPersistance (step s c) ⊆ disk (step s c).
Proof.
  intros Hflag Hsub.
  destruct c as [now n e amount inc|now n e amount inc|n m o|n entries|n| | |zone adj cur];
    cbn [step].
  - rewrite settle_addArrayEntry. destruct (accepted e); [|done].
    by apply mirrored_write.
  - rewrite settle_addArrayCountEntry. destruct (accepted e); [|done].
    by apply mirrored_write.
  - rewrite getArrayEntries_state. destruct o; [|done].
    rewrite getArrayContent_ordered. simpl. by rewrite mirrored_sorted_in_place.
  - by apply mirrored_write.
  - by apply mirrored_write.
  - unfold sendTopSizes. simpl. by rewrite mirrored_sorted_in_place.
  - unfold sendTopReferences. simpl. by rewrite mirrored_sorted_in_place.
  - unfold sendSecondHits. rewrite getArrayContent_ordered. cbn [snd].
    rewrite mirrored_sorted_in_place by done. by apply mirrored_write.
Qed.

Lemma mirrored_run (s : StateManagement) (calls : list call) :
  filePersistance s = true ->
  localPersistance s ⊆ disk s ->
  filePersistance (run s calls) = true /\
  localPersistance (run s calls) ⊆ disk (run s calls).
Proof.
  revert s. induction calls as [|c calls IH]; intros s Hflag Hsub; simpl; [done|].
  apply IH; [by rewrite step_flag|by apply mirrored_step].
Qed.

(** With persistence on, the memory mirrors the disk: after any sequence of
    calls on a store created over a folder, every array bound in memory is
    the content of the file of its name. *)
Theorem memory_mirrors_the_disk (d : gmap string (list record)) (calls : list call)
    (name : string) (entries : list record) :
  let s := run (new_StateManagement d true) calls in
  localPersistance s !! name = Some entries ->
  disk s !! name = Some entries.
Proof.
  intros s Hlocal.
  destruct (mirrored_run (new_StateManagement d true) calls) as [_ Hsub].
  - done.
  - apply map_empty_subseteq.
  - by eapply lookup_weaken.
Qed.

Lemma memory_mirrors_the_disk_witness :
  disk (run (new_StateManagement ∅ true)
          [AddArrayEntry 1000 "texts" (VStr "a") (Some 10%nat) true;
           GetArrayEntries "texts" true true]) !! "texts"%string
  = Some [Record_ (VStr "a") 1000 1].
Proof.
  apply (memory_mirrors_the_disk ∅
           [AddArrayEntry 1000 "texts" (VStr "a") (Some 10%nat) true;
            GetArrayEntries "texts" true true]).
  reflexivity.
Defined.

(** With persistence on, a read changes nothing at all: after any sequence
    of calls on a store created over a folder, getArrayEntries and the two
    top lists, which sort what they read, give the store back as it was. *)
Theorem durable_reads_change_nothing (d : gmap string (list record))
    (calls : list call) (name : string) (map order : bool) :
  let s := run (new_StateManagement d true) calls in
  (getArrayEntries s name map order).2 = s /\
  (sendTopSizes s).2 = s /\
  (sendTopReferences s).2 = s.
Proof.
  intros s.
  destruct (mirrored_run (new_StateManagement d true) calls) as [Hflag Hsub];
    [done|apply map_empty_subseteq|].
  fold s in Hflag, Hsub. split_and!.
  - rewrite getArrayEntries_state. destruct order; [|done].
    rewrite getArrayContent_ordered. simpl. by apply mirrored_sorted_in_place.
  - unfold sendTopSizes. simpl. by apply mirrored_sorted_in_place.
  - unfold sendTopReferences. simpl. by apply mirrored_sorted_in_place.
Qed.

(** ** Replacing, reading and clearing *)

(** What is written under a name is what the next read of the name returns,
    in the order it was written, whether the read asks for an order or not;
    the reads of the other names are not affected. *)
Theorem write_then_read (s : StateManagement) (name other : string)
    (entries : list record) (map order : bool) :
  other <> name ->
  let s' := writeArrayEntries s name entries in
  (getArrayEntries s' name map order).1 =
    (if map then inl (entry <$> entries) else inr entries) /\
  (getArrayEntries s' other map order).1 = (getArrayEntries s other map order).1.
Proof.
  intros Hne s'. subst s'. rewrite !getArrayEntries_result.
  rewrite stored_write_eq, stored_write_ne by done.
  split; [|done].
  rewrite js_sort_never_negative by apply time_less_never_negative.
  by destruct order.
Qed.

Lemma write_then_read_witness :
  (getArrayEntries
     (writeArrayEntries fresh "hits"
        [Record_ (VStr "/img/1/1") 1000 1; Record_ (VStr "/img/2/2") 2000 1])
     "hits" true true).1
  = inl [VStr "/img/1/1"; VStr "/img/2/2"].
Proof.
  exact (proj1 (write_then_read fresh "hits" "paths"
                  [Record_ (VStr "/img/1/1") 1000 1; Record_ (VStr "/img/2/2") 2000 1]
                  true true ltac:(discriminate))).
Defined.

Ltac listed := apply (bool_decide_unpack _); vm_compute; exact I.

Lemma removeArrayEntries_cleared (s : StateManagement) (name : string) :
  cleared (removeArrayEntries s name) name.
Proof.
  unfold cleared, removeArrayEntries, writeArrayEntries. simpl.
  split; [by rewrite lookup_insert_eq|].
  intros ->. by rewrite lookup_insert_eq.
Qed.

Lemma removeArrayEntries_keeps_cleared (s : StateManagement) (name other : string) :
  cleared s other -> cleared (removeArrayEntries s name) other.
Proof.
  intros [Hlocal Hdisk].
  destruct (decide (other = name)) as [->|Hne]; [apply removeArrayEntries_cleared|].
  unfold cleared, removeArrayEntries, writeArrayEntries. simpl.
  rewrite lookup_insert_ne by done. split; [done|].
  intros Hflag. rewrite Hflag. rewrite lookup_insert_ne by done. by apply Hdisk.
Qed.

Lemma removeArrayEntries_again (s : StateManagement) (name : string) :
  cleared s name -> removeArrayEntries s name = s.
Proof.
  intros [Hlocal Hdisk]. destruct s as [flag d m].
  unfold removeArrayEntries, writeArrayEntries. simpl in *.
  rewrite (insert_id m) by done.
  destruct flag; [|done]. by rewrite (insert_id d) by auto.
Qed.

Lemma clearAllStats_cleared (s : StateManagement) (name : string) :
  name ∈ ["hits"; "paths"; "texts"; "sizes"; "sizes-all"; "references"]%string ->
  cleared (clearAllStats s) name.
Proof.
  intros Hname. unfold clearAllStats.
  repeat (apply elem_of_cons in Hname as [->|Hname];
          [repeat (apply removeArrayEntries_cleared ||
                   apply removeArrayEntries_keeps_cleared)|]).
  by apply elem_of_nil in Hname.
Qed.

(** After clearAllStats every list of the statistics is empty and the three
    hit counts are 0, whatever the store held; the six files, when
    persistence is on, hold the empty array; a second clearAllStats changes
    nothing. *)
Theorem clear_empties_every_list (s : StateManagement)
    (LocalTZA : Z -> bool -> Z) (adjusted current : Z) :
  let s' := clearAllStats s in
  (sendRecentTexts s').1 = [] /\
  (sendRecentPaths s').1 = [] /\
  (sendRecentSizes s').1 = [] /\
  (sendTopSizes s').1 = [] /\
  (sendTopReferences s').1 = [] /\
  (sendSecondHits LocalTZA s' adjusted current).1
    = [hit "5s" 0; hit "10s" 0; hit "15s" 0] /\
  (filePersistance s = true ->
   Forall (fun name => disk s' !! name = Some [])
     ["hits"; "paths"; "texts"; "sizes"; "sizes-all"; "references"]%string) /\
  clearAllStats s' = s'.
Proof.
  intros s'.
  assert (forall name,
            name ∈ ["hits"; "paths"; "texts"; "sizes"; "sizes-all"; "references"]%string ->
            stored s' name = []) as Hempty.
  { intros name Hname. subst s'. by apply clearAllStats_empties. }
  assert (forall name,
            name ∈ ["hits"; "paths"; "texts"; "sizes"; "sizes-all"; "references"]%string ->
            (recent s' name).1 = []) as Hrecent.
  { intros name Hname. unfold recent. rewrite getArrayContent_ordered. simpl.
    by rewrite (Hempty name Hname). }
  assert (filePersistance s' = filePersistance s) as Hflag by done.
  split_and!.
  - apply Hrecent. listed.
  - apply Hrecent. listed.
  - apply Hrecent. listed.
  - unfold sendTopSizes. rewrite getArrayContent_unordered. simpl.
    rewrite Hempty; [done|listed].
  - unfold sendTopReferences. rewrite getArrayContent_unordered. simpl.
    rewrite Hempty; [done|listed].
  - pose proof (sendSecondHits_response LocalTZA s' adjusted current) as Hanswer.
    cbv zeta in Hanswer. rewrite Hanswer, Hempty; [done|listed].
  - intros Hon. apply Forall_forall. intros name Hname.
    destruct (clearAllStats_cleared s name Hname) as [_ Hdisk].
    apply Hdisk. by rewrite <- Hon.
  - unfold clearAllStats at 1.
    assert (forall name,
              name ∈ ["hits"; "paths"; "texts"; "sizes"; "sizes-all"; "references"]%string ->
              removeArrayEntries s' name = s') as Hagain.
    { intros name Hname. by apply removeArrayEntries_again, clearAllStats_cleared. }
    rewrite (Hagain "hits"%string) by listed.
    rewrite (Hagain "paths"%string) by listed.
    rewrite (Hagain "texts"%string) by listed.
    rewrite (Hagain "sizes"%string) by listed.
    rewrite (Hagain "sizes-all"%string) by listed.
    apply Hagain. listed.
Qed.

Lemma clear_empties_every_list_witness :
  Forall (fun name => disk (clearAllStats (new_StateManagement ∅ true)) !! name = Some [])
    ["hits"; "paths"; "texts"; "sizes"; "sizes-all"; "references"]%string.
Proof.
  destruct (clear_empties_every_list (new_StateManagement ∅ true) Etc_UTC 0 0)
    as (_ & _ & _ & _ & _ & _ & Hdisk & _).
  by apply Hdisk.
Defined.

(** ** The hit counter on any store *)









(** ** Recording a served image *)

Section Recording.
Variable escape : value -> string.

Lemma request_path_not_empty (req : image_request) :
  request_path escape req <> ""%string.
Proof.
  assert (forall a b : string, a <> ""%string -> (a +:+ b)%string <> ""%string) as Happ.
  { intros [|c a] b H; [done|]. simpl. discriminate. }
  assert (forall b rest : string, (b +:+ "/" +:+ rest)%string <> ""%string) as Hbase.
  { intros [|c b] rest; simpl; discriminate. }
  unfold request_path.
  destruct (square req); destruct (isNil (text req)); simpl; auto.
Qed.

Lemma request_path_accepted (req : image_request) :
  _canAdd (VStr (request_path escape req)) = Normal true.
Proof.
  unfold _canAdd. simpl.
  by rewrite bool_decide_eq_false_2 by apply request_path_not_empty.
Qed.

Lemma and_then_normal (s s' : StateManagement)
    (f : StateManagement -> completion StateManagement) :
  f s = Normal s' -> and_then (s, None) f = (s', None).
Proof. intros H. unfold and_then. by rewrite H. Qed.

Lemma and_then_thrown (s : StateManagement) (err : error)
    (f : StateManagement -> completion StateManagement) :
  and_then (s, Some err) f = (s, Some err).
Proof. done. Qed.

(** Only an array makes an insert throw. *)
Lemma addArrayEntry_normal (s : StateManagement) (now : Z) (name : string)
    (e : value) (amount : option nat) (increment : bool) :
  (forall elems, e <> VArr elems) ->
  addArrayEntry s now name e amount increment =
  Normal (settle s (addArrayEntry s now name e amount increment)) /\
  addArrayCountEntry s now name e amount increment =
  Normal (settle s (addArrayCountEntry s now name e amount increment)).
Proof.
  intros He. unfold addArrayEntry, addArrayCountEntry.
  destruct (_canAdd e) as [[]|err] eqn:Hadd; try done.
  exfalso. unfold _canAdd in Hadd.
  destruct e as [|[]]; simpl in Hadd; try done.
  - by destruct (bool_decide _).
  - by eapply He.
Qed.

Lemma and_then_addArrayEntry (s : StateManagement) (now : Z) (name : string)
    (e : value) (amount : option nat) (increment : bool) :
  (forall elems, e <> VArr elems) ->
  and_then (s, None) (fun s => addArrayEntry s now name e amount increment) =
  (step s (AddArrayEntry now name e amount increment), None).
Proof.
  intros He. unfold and_then.
  by rewrite (proj1 (addArrayEntry_normal s now name e amount increment He)).
Qed.

Lemma and_then_addArrayCountEntry (s : StateManagement) (now : Z) (name : string)
    (e : value) (amount : option nat) (increment : bool) :
  (forall elems, e <> VArr elems) ->
  and_then (s, None) (fun s => addArrayCountEntry s now name e amount increment) =
  (step s (AddArrayCountEntry now name e amount increment), None).
Proof.
  intros He. unfold and_then.
  by rewrite (proj2 (addArrayEntry_normal s now name e amount increment He)).
Qed.

Lemma and_then_array (s : StateManagement) (now : Z) (name : string)
    (elems : list json) (amount : option nat) (increment : bool) :
  and_then (s, None) (fun s => addArrayEntry s now name (VArr elems) amount increment) =
  (s, Some (ReferenceError "a")).
Proof. done. Qed.

(** The store after [saveAllImageStats] is the store after the calls of
    [recording]; the exception is that of the array. *)
Lemma saveAllImageStats_run (s : StateManagement) (t : ticks) (req : image_request) :
  saveAllImageStats escape s t req =
  (run s (recording escape t req),
   match text req with
   | VJson (JArr _) => Some (ReferenceError "a")
   | _ => None
   end).
Proof.
  unfold saveAllImageStats, recording.
  set (path := VStr (request_path escape req)).
  set (size := VSize (width req) (height req)).
  assert (forall elems, path <> VArr elems) as Hpath by done.
  assert (forall elems, size <> VArr elems) as Hsize by done.
  rewrite !and_then_addArrayEntry by done.
  assert ((exists elems, text req = VArr elems) \/
          (forall elems, text req <> VArr elems)) as [[elems Harr]|Htext].
  { destruct (text req) as [|[]]; try (right; discriminate). left. by eexists. }
  { rewrite Harr. rewrite and_then_array. unfold VArr. cbn [app run fold_left].
    rewrite !and_then_thrown.
    by destruct (referer req) as [reference|];
      [destruct (negb (bool_decide (reference = ""%string)))|]. }
  rewrite !and_then_addArrayEntry by done.
  rewrite and_then_addArrayCountEntry by done.
  assert (match text req with
          | VJson (JArr _) => Some (ReferenceError "a")
          | _ => None
          end = None) as ->.
  { destruct (text req) as [|[]]; try done. exfalso. by eapply Htext. }
  set (tail := match referer req with
               | Some reference =>
                   if negb (bool_decide (reference = ""%string))
                   then [AddArrayCountEntry (at_references t) "references"
                           (VStr reference) (Some 10%nat) true]
                   else []
               | None => []
               end).
  assert (match text req with
          | VJson (JArr _) => []
          | _ => [AddArrayEntry (at_texts t) "texts" (text req) (Some 10%nat) true;
                  AddArrayEntry (at_sizes t) "sizes" size (Some 10%nat) true;
                  AddArrayCountEntry (at_sizes_all t) "sizes-all" size
                    (Some 10%nat) true] ++ tail
          end
          = [AddArrayEntry (at_texts t) "texts" (text req) (Some 10%nat) true;
             AddArrayEntry (at_sizes t) "sizes" size (Some 10%nat) true;
             AddArrayCountEntry (at_sizes_all t) "sizes-all" size (Some 10%nat) true]
            ++ tail) as ->.
  { destruct (text req) as [|[]]; try done. exfalso. by eapply Htext. }
  subst tail. cbn [app run fold_left].
  destruct (referer req) as [reference|]; [|done].
  destruct (negb (bool_decide (reference = ""%string))); [|done].
  by rewrite and_then_addArrayCountEntry.
Qed.
End Recording.

Lemma stored_insert_elsewhere (s : StateManagement) (name : string) (c : call) :
  inserts_elsewhere name c -> stored (step s c) name = stored s name.
Proof.
  destruct c as [now n e amount inc|now n e amount inc| | | | | |]; try done;
    cbn [step inserts_elsewhere]; intros Hne.
  - rewrite settle_addArrayEntry. destruct (accepted e); [|done].
    by rewrite stored_write_ne.
  - rewrite settle_addArrayCountEntry. destruct (accepted e); [|done].
    by rewrite stored_write_ne.
Qed.

Lemma stored_run_elsewhere (s : StateManagement) (name : string) (calls : list call) :
  Forall (inserts_elsewhere name) calls -> stored (run s calls) name = stored s name.
Proof.
  intros H. revert s. induction H as [|c calls Hc _ IH]; intros s; simpl; [done|].
  by rewrite IH, stored_insert_elsewhere.
Qed.

Lemma run_within_capacity (s : StateManagement) (name : string) (k : nat)
    (calls : list call) :
  Forall (within_capacity name k) calls ->
  (length (stored s name) <= k)%nat ->
  (length (stored (run s calls) name) <= k)%nat.
Proof.
  intros H. revert s. induction H as [|c calls Hc _ IH]; intros s Hs; simpl; [done|].
  by apply IH, step_within_capacity.
Qed.

Section Serving.
Variable escape : value -> string.

Lemma serve_run (s : StateManagement) (requests : list (ticks * image_request)) :
  serve escape s requests =
  run s (concat ((fun tr => recording escape tr.1 tr.2) <$> requests)).
Proof.
  revert s. induction requests as [|[t req] requests IH]; intros s; [done|].
  change (serve escape s ((t, req) :: requests))
    with (serve escape (saveAllImageStats escape s t req).1 requests).
  rewrite fmap_cons. cbn [concat fst snd].
  rewrite run_app, <- IH. by rewrite saveAllImageStats_run.
Qed.

Lemma recording_tail_elsewhere (t : ticks) (req : image_request) :
  Forall (inserts_elsewhere "hits") (drop 1 (recording escape t req)).
Proof.
  unfold recording. simpl.
  destruct (text req) as [|[]]; destruct (referer req) as [reference|];
    try destruct (negb (bool_decide (reference = ""%string)));
    repeat constructor; done.
Qed.

Lemma stored_recording_hits (s : StateManagement) (t : ticks) (req : image_request) :
  stored (run s (recording escape t req)) "hits" =
  stored s "hits" ++ [fresh_record (VStr (request_path escape req)) (at_hits t)].
Proof.
  pose proof (recording_tail_elsewhere t req) as Htail.
  assert (recording escape t req =
          AddArrayEntry (at_hits t) "hits" (VStr (request_path escape req)) None false
          :: drop 1 (recording escape t req)) as -> by done.
  change (run s (?c :: ?rest)) with (run (step s c) rest).
  rewrite stored_run_elsewhere by done.
  cbn [step]. rewrite addArrayEntry_accepted by apply request_path_accepted.
  cbn [settle]. by rewrite stored_write_eq.
Qed.

(** The collection "hits" is the log of the served requests: every request,
    also one whose recording throws later, appends one record with its path
    and count 1; none is merged and none is evicted. *)
Theorem every_request_is_logged (s : StateManagement)
    (requests : list (ticks * image_request)) :
  stored (serve escape s requests) "hits" =
  stored s "hits" ++
  ((fun tr => fresh_record (VStr (request_path escape tr.2)) (at_hits tr.1)) <$> requests).
Proof.
  revert s. induction requests as [|[t req] requests IH]; intros s.
  { simpl. by rewrite app_nil_r. }
  change (serve escape s ((t, req) :: requests))
    with (serve escape (saveAllImageStats escape s t req).1 requests).
  rewrite IH, saveAllImageStats_run. cbn [fst].
  rewrite stored_recording_hits, <- app_assoc. done.
Qed.
End Serving.

Section Requests.
Variable escape : value -> string.

(** A request whose [text] is an array (a repeated [text=] in the query)
    makes the recording throw at the insert of the text: by then its hit and
    its path are recorded, and nothing of its text, size or referrer ever
    is.  No other request makes it throw. *)
Theorem array_text_stops_the_recording (s : StateManagement) (t : ticks)
    (req : image_request) :
  let result := saveAllImageStats escape s t req in
  ((forall elems, text req <> VArr elems) -> result.2 = None) /\
  (forall elems, text req = VArr elems ->
     result.2 = Some (ReferenceError "a") /\
     stored result.1 "hits" =
       stored s "hits" ++ [fresh_record (VStr (request_path escape req)) (at_hits t)] /\
     stored result.1 "paths" =
       inserted_content newest_first (at_paths t) (stored s "paths")
         (VStr (request_path escape req)) (Some 10%nat) true /\
     forall name, name <> "hits"%string -> name <> "paths"%string ->
       stored result.1 name = stored s name).
Proof.
  intros result. subst result. rewrite saveAllImageStats_run. cbn [fst snd]. split.
  - intros Htext. destruct (text req) as [|[]]; try done. exfalso. by eapply Htext.
  - intros elems Harr. rewrite stored_recording_hits.
    assert (recording escape t req =
            [AddArrayEntry (at_hits t) "hits" (VStr (request_path escape req)) None false;
             AddArrayEntry (at_paths t) "paths" (VStr (request_path escape req))
               (Some 10%nat) true]) as ->.
    { unfold recording. by rewrite Harr. }
    split; [by rewrite Harr|]. split; [done|].
    cbn [run fold_left step].
    rewrite !addArrayEntry_accepted by apply request_path_accepted. cbn [settle].
    split.
    + by rewrite stored_write_eq, stored_write_ne.
    + intros name Hhits Hpaths. by rewrite !stored_write_ne.
Qed.

(** A request without text, or with the empty text, leaves the recent texts
    as they were, and a request without referrer, or with the empty one,
    leaves the top referrers as they were. *)
Theorem absent_text_and_referer_are_skipped (s : StateManagement) (t : ticks)
    (req : image_request) :
  let s' := (saveAllImageStats escape s t req).1 in
  (isNil (text req) = true \/ text req = VStr "" -> stored s' "texts" = stored s "texts") /\
  (referer req = None \/ referer req = Some ""%string ->
   stored s' "references" = stored s "references").
Proof.
  intros s'. subst s'. rewrite saveAllImageStats_run. cbn [fst]. split.
  - intros Htext.
    assert (accepted (text req) = false) as Hrej.
    { destruct Htext as [Hnil| ->]; [|done]. unfold accepted, _canAdd. by rewrite Hnil. }
    assert (Forall (fun c => forall s0, stored (step s0 c) "texts" = stored s0 "texts")
              (recording escape t req)) as Hcalls.
    { assert (forall c, inserts_elsewhere "texts" c ->
                forall s0, stored (step s0 c) "texts" = stored s0 "texts") as Hother
        by (intros c Hc s0; by apply stored_insert_elsewhere).
      assert (forall s0,
                stored (step s0 (AddArrayEntry (at_texts t) "texts" (text req)
                                   (Some 10%nat) true)) "texts" = stored s0 "texts")
        as Hskip.
      { intros s0. cbn [step]. by rewrite settle_addArrayEntry, Hrej. }
      unfold recording.
      destruct (text req) as [|[]]; destruct (referer req) as [reference|];
        try destruct (negb (bool_decide (reference = ""%string)));
        repeat (apply Forall_cons; split; [(exact Hskip || (apply Hother; done))|]);
        apply Forall_nil_2. }
    revert s. induction Hcalls as [|c calls Hc _ IH]; intros s; [done|].
    change (run s (c :: calls)) with (run (step s c) calls).
    by rewrite IH, Hc.
  - intros Href. apply stored_run_elsewhere. unfold recording.
    assert (match referer req with
            | Some reference =>
                if negb (bool_decide (reference = ""%string))
                then [AddArrayCountEntry (at_references t) "references" (VStr reference)
                        (Some 10%nat) true]
                else []
            | None => []
            end = []) as ->.
    { by destruct Href as [-> | ->]. }
    destruct (text req) as [|[]]; repeat constructor; done.
Qed.
End Requests.

Lemma array_text_stops_the_recording_witness :
  let req := ImageRequest "/img" 100 50 None (VArr [JStr "a"; JStr "b"]) None in
  let result := saveAllImageStats plain fresh (Ticks 1 2 3 4 5 6) req in
  result.2 = Some (ReferenceError "a") /\
  stored result.1 "sizes" = [].
Proof.
  intros req result.
  destruct (array_text_stops_the_recording plain fresh (Ticks 1 2 3 4 5 6) req)
    as [_ Harr].
  destruct (Harr [JStr "a"; JStr "b"] eq_refl) as (Hthrow & _ & _ & Hother).
  split; [exact Hthrow|].
  subst result. by rewrite Hother.
Defined.

Lemma absent_text_and_referer_are_skipped_witness :
  let s := writeArrayEntries fresh "texts" [Record_ (VStr "a") 1000 1] in
  stored (saveAllImageStats plain s (Ticks 1 2 3 4 5 6)
            (ImageRequest "/img" 100 50 (Some 10) VUndefined None)).1 "texts"
  = [Record_ (VStr "a") 1000 1].
Proof.
  intros s.
  destruct (absent_text_and_referer_are_skipped plain s (Ticks 1 2 3 4 5 6)
              (ImageRequest "/img" 100 50 (Some 10) VUndefined None)) as [Htext _].
  rewrite Htext; [reflexivity|by left].
Defined.

Section Served.
Variable escape : value -> string.

Lemma recording_within_capacity (name : string) (t : ticks) (req : image_request) :
  name <> "hits"%string ->
  Forall (within_capacity name 10) (recording escape t req) /\
  Forall (merging name) (recording escape t req).
Proof.
  intros Hname. unfold recording.
  destruct (text req) as [|[]]; destruct (referer req) as [reference|];
    try destruct (negb (bool_decide (reference = ""%string)));
    split; repeat constructor; simpl; congruence.
Qed.

Lemma recordings_within_capacity (name : string)
    (requests : list (ticks * image_request)) :
  name <> "hits"%string ->
  Forall (within_capacity name 10)
    (concat ((fun tr => recording escape tr.1 tr.2) <$> requests)) /\
  Forall (merging name)
    (concat ((fun tr => recording escape tr.1 tr.2) <$> requests)).
Proof.
  intros Hname. induction requests as [|[t req] requests [IH1 IH2]].
  { split; constructor. }
  rewrite fmap_cons. cbn [concat fst snd].
  destruct (recording_within_capacity name t req Hname).
  split; apply Forall_app; by split.
Qed.

(** However many images are served, each list of the statistics other than
    the hits, if it starts empty, holds at most 10 records, no value twice,
    and every count is at least 1; so does the list that a recent query
    returns for it. *)
Theorem served_lists_are_bounded (s : StateManagement) (name : string)
    (requests : list (ticks * image_request)) :
  name <> "hits"%string ->
  stored s name = [] ->
  let s' := serve escape s requests in
  (length (stored s' name) <= 10)%nat /\
  NoDup (entry <$> stored s' name) /\
  (forall r, r ∈ stored s' name -> 1 <= count r) /\
  (length (recent s' name).1 <= 10)%nat /\
  NoDup (recent s' name).1.
Proof.
  intros Hname Hempty s'.
  destruct (recordings_within_capacity name requests Hname) as [Hcap Hmerge].
  assert ((length (stored s' name) <= 10)%nat) as Hlen.
  { subst s'. rewrite serve_run. apply run_within_capacity; [done|].
    rewrite Hempty. simpl. lia. }
  destruct (merged_run s name _ Hempty Hmerge) as [Hnodup Hall].
  rewrite <- serve_run in Hnodup, Hall. fold s' in Hnodup, Hall.
  assert ((recent s' name).1 = entry <$> stored s' name) as Hrecent.
  { unfold recent.
    pose proof (read_keeps_stored_order s' name true) as H.
    destruct (getArrayContent s' name true) as [content s'']. simpl in *.
    by rewrite H. }
  rewrite Hrecent, length_fmap.
  split_and!; try done.
  intros r Hr. destruct (Hall r Hr) as [_ ?]. lia.
Qed.
End Served.

Lemma served_lists_are_bounded_witness :
  let s' := serve plain fresh
              [(Ticks 1 2 3 4 5 6, ImageRequest "/img" 100 50 None (VStr "a") None);
               (Ticks 7 8 9 10 11 12, ImageRequest "/img" 100 50 None (VStr "a") None)] in
  (length (stored s' "sizes") <= 10)%nat /\ NoDup (recent s' "sizes").1.
Proof.
  intros s'.
  destruct (served_lists_are_bounded plain fresh "sizes"
              [(Ticks 1 2 3 4 5 6, ImageRequest "/img" 100 50 None (VStr "a") None);
               (Ticks 7 8 9 10 11 12, ImageRequest "/img" 100 50 None (VStr "a") None)])
    as (Hlen & _ & _ & _ & Hnodup); [discriminate|reflexivity|].
  by split.
Defined.

(** ** formatString and the inspirational quotes *)

Lemma prefix_skip (p s : string) :
  String.prefix p s = true -> s = (p +:+ skip (String.length p) s)%string.
Proof.
  revert s. induction p as [|a p IH]; intros s.
  { by destruct s. }
  destruct s as [|b s]; simpl; [done|].
  destruct (ascii_dec a b) as [->|]; [|done].
  intros H. change (String b s = String b (p +:+ skip (String.length p) s)).
  f_equal. by apply IH.
Qed.

Lemma split_first_spec (p s before after : string) :
  split_first p s = Some (before, after) -> s = (before +:+ p +:+ after)%string.
Proof.
  revert before. induction s as [|c s IH]; intros before; cbn [split_first].
  - destruct (String.prefix p "") eqn:Hp; [|done].
    intros [= <- <-]. by apply prefix_skip in Hp.
  - destruct (String.prefix p (String c s)) eqn:Hp.
    + intros [= <- <-]. by apply prefix_skip in Hp.
    + destruct (split_first p s) as [[a b]|]; [|done].
      intros [= <- <-].
      change (String c s = String c (a +:+ p +:+ b)).
      f_equal. by apply IH.
Qed.

Lemma prefix_empty (s : string) : String.prefix "" s = true.
Proof. by destruct s. Qed.

Lemma append_cons (c : ascii) (a x : string) :
  (String c a +:+ x)%string = String c (a +:+ x).
Proof. reflexivity. Qed.

Lemma prefix_cons (a b : ascii) (p s : string) :
  String.prefix (String a p) (String b s) =
    if ascii_dec a b then String.prefix p s else false.
Proof. reflexivity. Qed.

Lemma split_first_placeholder (a b : string) :
  includes "%s" (a +:+ "%") = false ->
  split_first "%s" (a +:+ "%s" +:+ b) = Some (a, b).
Proof.
  unfold includes. induction a as [|c a IH].
  { intros _. change (("" +:+ "%s" +:+ b)%string) with (String "%" (String "s" b)).
    cbn [split_first]. rewrite !prefix_cons, prefix_empty. reflexivity. }
  rewrite (append_cons c a "%"), (append_cons c a ("%s" +:+ b)).
  cbn [split_first].
  destruct (String.prefix "%s" (String c (a +:+ "%"))) eqn:Hp; [done|].
  assert (String.prefix "%s" (String c (a +:+ "%s" +:+ b)) = false) as ->.
  { rewrite prefix_cons in *. destruct (ascii_dec "%" c); [|done].
    destruct a as [|d a]; [done|].
    rewrite (append_cons d a "%"), prefix_cons in Hp.
    rewrite (append_cons d a ("%s" +:+ b)), prefix_cons.
    destruct (ascii_dec "s" d); [|done]. by rewrite prefix_empty in Hp. }
  destruct (split_first "%s" (a +:+ "%")) as [[? ?]|] eqn:Hs; [done|].
  intros _. by rewrite IH.
Qed.

Lemma GetSubstitution_plain (matched before after template : string) :
  includes "$" template = false ->
  GetSubstitution matched before after template = template.
Proof.
  unfold includes. induction template as [|c rest IH]; [done|].
  cbn [split_first GetSubstitution]. rewrite prefix_cons.
  destruct (ascii_dec "$" c) as [<-|Hc]; [by rewrite prefix_empty|].
  destruct (split_first "$" rest) as [[? ?]|] eqn:Hs; [done|].
  intros _. rewrite IH by done.
  destruct (Ascii.eqb_spec c "$"); [congruence|done].
Qed.

(** A string without placeholder comes back from formatString as it is,
    whatever the arguments. *)
Theorem formatString_without_placeholder (stringValue : string) (args : list string) :
  includes "%s" stringValue = false ->
  formatString stringValue args = stringValue.
Proof.
  intros H. unfold formatString.
  induction args as [|x args IH]; [done|]. simpl. by rewrite H.
Qed.

Lemma formatString_without_placeholder_witness :
  formatString "Dream big." ["boom"; "bear"]%string = "Dream big."%string.
Proof. apply formatString_without_placeholder. reflexivity. Defined.

(** The first argument of formatString takes the place of the leftmost
    placeholder, and the other arguments go on with the result.  What is put
    in is the replacement text that [replace] makes of the argument: the
    argument itself when it holds no dollar. *)
Theorem formatString_fills_first_placeholder (before after x : string)
    (args : list string) :
  includes "%s" (before +:+ "%") = false ->
  formatString (before +:+ "%s" +:+ after) (x :: args) =
    formatString (before +:+ GetSubstitution "%s" before after x +:+ after) args /\
  (includes "$" x = false ->
   formatString (before +:+ "%s" +:+ after) (x :: args) =
     formatString (before +:+ x +:+ after) args).
Proof.
  intros Hfirst.
  assert (formatString (before +:+ "%s" +:+ after) (x :: args) =
          formatString (before +:+ GetSubstitution "%s" before after x +:+ after) args)
    as Hfill.
  { unfold formatString at 1. cbn [fold_left]. unfold includes, replace.
    by rewrite split_first_placeholder. }
  split; [done|].
  intros Hx. by rewrite Hfill, GetSubstitution_plain.
Qed.

Lemma formatString_fills_first_placeholder_witness :
  formatString "If you %s it, you can %s it." ["move"; "party"]%string
  = "If you move it, you can party it."%string.
Proof.
  destruct (formatString_fills_first_placeholder "If you " " it, you can %s it."
              "move" ["party"%string]) as [_ Hplain]; [reflexivity|].
  etrans; [apply Hplain; reflexivity|].
  destruct (formatString_fills_first_placeholder "If you move it, you can " " it."
              "party" []) as [_ Hplain']; [reflexivity|].
  apply Hplain'. reflexivity.
Defined.

(** The loop of single draws is one call of formatString with all the drawn
    words. *)
Lemma formatString_cons (stringValue x : string) (args : list string) :
  formatString stringValue (x :: args) =
    formatString (formatString stringValue [x]) args.
Proof. reflexivity. Qed.

Lemma fill_quote_formatString (amount index : nat) (drawn : nat -> nat)
    (randomQuote : string) :
  fill_quote amount index drawn randomQuote =
    formatString randomQuote
      (map (fun i => getRandomWord (drawn i)) (seq index amount)).
Proof.
  revert index randomQuote.
  induction amount as [|amount IH]; intros index randomQuote; [done|].
  cbn [fill_quote seq map]. by rewrite IH, (formatString_cons randomQuote).
Qed.

Lemma word_index (n : nat) :
  (n < 13)%nat ->
  n = 0%nat \/ n = 1%nat \/ n = 2%nat \/ n = 3%nat \/ n = 4%nat \/ n = 5%nat \/
  n = 6%nat \/ n = 7%nat \/ n = 8%nat \/ n = 9%nat \/ n = 10%nat \/
  n = 11%nat \/ n = 12%nat.
Proof. lia. Qed.

Lemma filled_quote (quote first second : nat) (randomQuote : string) :
  QUOTES !! quote = Some randomQuote ->
  (first < 13)%nat -> (second < 13)%nat ->
  matches randomQuote <> 0%nat /\
  (matches randomQuote <= 2)%nat /\
  includes "%s"
    (formatString randomQuote
       (take (matches randomQuote) [getRandomWord first; getRandomWord second]))
    = false.
Proof.
  intros Hq Hfirst Hsecond.
  assert (quote < 5)%nat as Hquote.
  { by apply lookup_lt_Some in Hq. }
  apply word_index in Hfirst, Hsecond.
  destruct quote as [|[|[|[|[|quote]]]]]; [..|lia]; injection Hq as <-.
  all: destruct Hfirst as [->|[->|[->|[->|[->|[->|[->|[->|[->|[->|[->|[->| ->]]]]]]]]]]]].
  all: destruct Hsecond as [->|[->|[->|[->|[->|[->|[->|[->|[->|[->|[->|[->| ->]]]]]]]]]]]].
  all: vm_compute; repeat split; first [lia | discriminate | reflexivity | idtac].
Qed.

(** With draws inside the two lists generateInspirationalQuote never throws:
    a request without text is handed on with a quote in which no placeholder
    is left, and a request with any text, the empty one too, is answered
    400. *)
Theorem quote_is_filled_or_refused (text : value) (quote : nat)
    (drawn : nat -> nat) :
  (quote < length QUOTES)%nat ->
  (forall i, (drawn i < length WORDS)%nat) ->
  match generateInspirationalQuote text quote drawn with
  | Next randomQuote => isNil text = true /\ includes "%s" randomQuote = false
  | Answered status _ => isNil text = false /\ status = 400
  | Thrown => False
  end.
Proof.
  intros Hquote Hdrawn. unfold generateInspirationalQuote.
  destruct (isNil text); cbn [negb]; [|done].
  destruct (QUOTES !! quote) as [randomQuote|] eqn:Hq;
    [|by apply lookup_ge_None in Hq; lia].
  destruct (filled_quote quote (drawn 0%nat) (drawn 1%nat) randomQuote Hq
              (Hdrawn 0%nat) (Hdrawn 1%nat)) as (Hsome & Hmost & Hfilled).
  destruct (matches randomQuote) as [|[|[|amount]]] eqn:Hm; [done| | |lia].
  - split; [done|]. by rewrite fill_quote_formatString.
  - split; [done|]. by rewrite fill_quote_formatString.
Qed.

Lemma quote_is_filled_or_refused_witness :
  match
    generateInspirationalQuote VUndefined 3
      (fun i => match i with O => 11%nat | S _ => 6%nat end)
  with
  | Next randomQuote =>
      isNil VUndefined = true /\ includes "%s" randomQuote = false
  | Answered status _ => isNil VUndefined = false /\ status = 400
  | Thrown => False
  end.
Proof.
  apply (quote_is_filled_or_refused VUndefined 3
           (fun i => match i with O => 11%nat | S _ => 6%nat end)).
  - vm_compute. lia.
  - intros [|i]; vm_compute; lia.
Defined.
